(** * Presence-history analysis of [aat-tracking-history] (src/index.js)

    A shallow embedding of [processDelivery]: the loop that turns the
    presence history of a tracking channel into publisher, subscriber and
    both-present intervals, the clipping of those intervals to the delivery
    time bounds ([truncateIntervals]) and the aggregate statistics.

    JavaScript values are modelled as follows.
    - A [Date] is its time value: an integer number of milliseconds, or
      [None] for an Invalid Date (time value NaN).
    - A Number that is a difference or a sum of time values is [option Z],
      [None] being NaN; relational operators are false on NaN.  Arithmetic
      is exact (the doubles of the program are exact below 2^53).
    - The percentages are [number]s: NaN, an infinity or an exact rational.
    - The interval objects are mutable and shared by reference: they live in
      a heap (a list indexed by reference), and the interval arrays and the
      [current...Interval] variables hold references into it. *)

From Stdlib Require Import ZArith QArith String List Lia.
From stdpp Require Import base option list.

Open Scope Z_scope.

(** ** Exceptions *)

Inductive result (A : Type) : Type :=
| Ok (a : A)
| Throw (e : string).
Arguments Ok {A} a.
Arguments Throw {A} e.

#[global] Instance result_ret : MRet result := fun A a => Ok a.
#[global] Instance result_bind : MBind result := fun A B k m =>
  match m with
  | Ok a => k a
  | Throw e => Throw e
  end.

(** ** Numbers *)

(** Relational operators on Numbers that are integers or NaN. *)
Definition lt (a b : option Z) : bool :=
  match a, b with Some x, Some y => x <? y | _, _ => false end.
Definition gt (a b : option Z) : bool :=
  match a, b with Some x, Some y => y <? x | _, _ => false end.
Definition le (a b : option Z) : bool :=
  match a, b with Some x, Some y => x <=? y | _, _ => false end.
Definition ge (a b : option Z) : bool :=
  match a, b with Some x, Some y => y <=? x | _, _ => false end.

Definition sub (a b : option Z) : option Z :=
  match a, b with Some x, Some y => Some (x - y) | _, _ => None end.
Definition add (a b : option Z) : option Z :=
  match a, b with Some x, Some y => Some (x + y) | _, _ => None end.

Inductive number : Type :=
| NaN
| Infinity (negative : bool)
| Finite (q : Q).

(** [presentMillis / durationMillis * 100]. *)
Definition percent (presentMillis durationMillis : option Z) : number :=
  match presentMillis, durationMillis with
  | Some m, Some d =>
      if d =? 0 then (if m =? 0 then NaN else Infinity (m <? 0))
      else Finite (inject_Z m / inject_Z d * 100)%Q
  | _, _ => NaN
  end.

(** ** Dates *)

Record Date : Type := mkDate { getTime : option Z }.

(** The largest time value of a valid Date, in either direction. *)
Definition maxTime : Z := 8640000000000000.

Definition TimeClip (t : Z) : option Z :=
  if Z.abs t <=? maxTime then Some t else None.

(** What the program passes to [new Date(...)]: an epoch number (the
    timestamp of a presence message) or a string (a command-line bound). *)
Inductive DateArg : Type :=
| Epoch (ms : Z)
| DateString (s : string).

(** A JavaScript value held by one of the [earliest...Present] variables. *)
Inductive value : Type :=
| VNumber (n : Z)
| VString (s : string)
| VDate (d : Date).

(** [v === 0] *)
Definition strict_eq_0 (v : value) : bool :=
  match v with
  | VNumber n => n =? 0
  | _ => false
  end.

(** ** Presence messages, interval objects and the loop state *)

(** A presence message: [type] is [JSON.parse(item.data).type], a string or
    missing. *)
Record item : Type := mkItem {
  type : option string;
  action : string;
  timestamp : DateArg
}.

(** An interval object [{publisherOrSubscriber, presenceAction, start}];
    [end] is undefined until the interval is closed. *)
Record interval : Type := mkInterval {
  publisherOrSubscriber : option string;
  presenceAction : string;
  start : Date;
  end_ : option Date
}.

Definition set_start (d : Date) (i : interval) : interval :=
  mkInterval (publisherOrSubscriber i) (presenceAction i) d (end_ i).
Definition set_end (d : Date) (i : interval) : interval :=
  mkInterval (publisherOrSubscriber i) (presenceAction i) (start i) (Some d).

(** ToNumber of [interval.end]: NaN when it is undefined. *)
Definition end_number (i : interval) : option Z :=
  match end_ i with
  | Some d => getTime d
  | None => None
  end.

Abbreviation ref := nat (only parsing).
Abbreviation heap := (list interval) (only parsing).

(** The three variables the loop keeps per track: for the publisher track
    [publisherPresent], [publisherIntervals] and [currentPublisherInterval],
    and likewise for the subscriber and the both track. *)
Record track : Type := mkTrack {
  present : bool;
  intervals : list ref;
  current : option ref
}.

Record state : Type := mkState {
  objects : heap;
  publisher : track;
  subscriber : track;
  both : track
}.

Definition initial : state :=
  mkState [] (mkTrack false [] None) (mkTrack false [] None)
    (mkTrack false [] None).

(** [publisherOrSubscriber == 'PUBLISHER'], on a string or a missing tag. *)
Definition is_PUBLISHER (t : option string) : bool :=
  match t with
  | Some s => String.eqb s "PUBLISHER"
  | None => false
  end.

(** [presenceAction === 'enter' || presenceAction === 'update'] *)
Definition enter_or_update (a : string) : bool :=
  String.eqb a "enter" || String.eqb a "update".

Definition TypeError_end : string :=
  "TypeError: Cannot set properties of undefined (setting 'end')".
Definition TypeError_getTime : string :=
  "TypeError: Cannot read properties of undefined (reading 'getTime')".

(** The block [if(newPresence !== present) { ... }], which the loop body
    repeats for each of the three tracks: open a new interval object, or
    close the current one and push it. *)
Definition transition (who : option string) (presenceAction : string)
    (timestamp : Date) (newPresence : bool) (h : heap) (t : track)
    : result (heap * track) :=
  if negb (eqb newPresence (present t)) then
    if newPresence then
      Ok (h ++ [mkInterval who presenceAction timestamp None],
          mkTrack newPresence (intervals t) (Some (length h)))
    else
      match current t with
      | None => Throw TypeError_end
      | Some r =>
          Ok (alter (set_end timestamp) r h,
              mkTrack newPresence (intervals t ++ [r]) None)
      end
  else Ok (h, t).

(** The clipping test and the two clamps of [truncateIntervals], for one
    interval of the array. *)
Definition truncate (startDate endDate : Date) (acc : heap * list ref)
    (r : ref) : heap * list ref :=
  let '(h, result) := acc in
  match h !! r with
  | None => (h, result)
  | Some i =>
      if ge (getTime (start i)) (getTime endDate)
         || le (end_number i) (getTime startDate)
      then (h, result)
      else
        let h1 :=
          if lt (getTime (start i)) (getTime startDate)
          then alter (set_start startDate) r h else h in
        let h2 :=
          if gt (end_number i) (getTime endDate)
          then alter (set_end endDate) r h1 else h1 in
        (h2, result ++ [r])
  end.

Definition truncateIntervals (startDate endDate : Date) (h : heap)
    (intervals : list ref) : heap * list ref :=
  foldl (truncate startDate endDate) (h, []) intervals.

(** One round of an aggregation [forEach]: add the interval's length and
    record the first start. *)
Definition accumulate (h : heap) (acc : result (option Z * value)) (r : ref)
    : result (option Z * value) :=
  '(presentMillis, earliestPresent) ← acc;
  match h !! r with
  | None => Throw TypeError_getTime
  | Some i =>
      match end_ i with
      | None => Throw TypeError_getTime
      | Some e =>
          Ok (add presentMillis (sub (getTime e) (getTime (start i))),
              if strict_eq_0 earliestPresent then VDate (start i)
              else earliestPresent)
      end
  end.

Definition aggregate (h : heap) (intervals : list ref)
    : result (option Z * value) :=
  foldl (accumulate h) (Ok (Some 0, VNumber 0)) intervals.

Record stats : Type := mkStats {
  durationMillis : option Z;
  publisherPresentMillis : option Z;
  publisherPresentPercent : number;
  earliestPublisherPresent : value;
  subscriberPresentMillis : option Z;
  subscriberPresentPercent : number;
  earliestSubscriberPresent : value;
  bothPresentMillis : option Z;
  bothPresentPercent : number;
  earliestBothPresent : value
}.

(** How the promise of [processDelivery] ends: resolved, rejected, or never
    settled because the history callback threw. *)
Inductive outcome : Type :=
| Resolved (r : stats)
| Rejected (msg : string)
| Uncaught (e : string).

(** A parser that knows a few ISO date-time strings, to run the model on. *)
Definition sample_parse (s : string) : option Z :=
  if String.eqb s "1970-01-01T00:00:00.000Z" then Some 0
  else if String.eqb s "1970-01-01T00:00:00.010Z" then Some 10
  else if String.eqb s "1970-01-01T00:00:00.030Z" then Some 30
  else None.

Section ProcessDelivery.

(** [Date.parse]: the time value of a date-time string, or NaN. *)
Variable Date_parse : string → option Z.

(** The time value of [new Date(v)]: NaN for an unparseable string or an
    out-of-range number. *)
Definition time_value (v : DateArg) : option Z :=
  match v with
  | Epoch ms => TimeClip ms
  | DateString s => t ← Date_parse s; TimeClip t
  end.

(** [new Date(v)]. It never throws: a bad argument gives an Invalid Date. *)
Definition new_Date (v : DateArg) : result Date :=
  Ok (mkDate (time_value v)).

(** The body of [for(const item of items)]. *)
Definition loop_body (st : state) (it : item) : result state :=
  let publisherOrSubscriber := type it in
  let presenceAction := action it in
  timestamp ← new_Date (timestamp it);
  if is_PUBLISHER publisherOrSubscriber then
    let newPublisherPresence := enter_or_update presenceAction in
    let newSubscriberPresence := present (subscriber st) in
    '(h, p) ← transition publisherOrSubscriber presenceAction timestamp
                newPublisherPresence (objects st) (publisher st);
    '(h, b) ← transition (Some "BOTH"%string) presenceAction timestamp
                (newPublisherPresence && newSubscriberPresence) h (both st);
    Ok (mkState h p (subscriber st) b)
  else
    let newPublisherPresence := present (publisher st) in
    let newSubscriberPresence := enter_or_update presenceAction in
    '(h, s) ← transition publisherOrSubscriber presenceAction timestamp
                newSubscriberPresence (objects st) (subscriber st);
    '(h, b) ← transition (Some "BOTH"%string) presenceAction timestamp
                (newPublisherPresence && newSubscriberPresence) h (both st);
    Ok (mkState h (publisher st) s b).

Fixpoint for_of (st : state) (items : list item) : result state :=
  match items with
  | [] => Ok st
  | it :: items => st' ← loop_body st it; for_of st' items
  end.

(** The three calls of [truncateIntervals] after the loop: the heap they
    leave and the three truncated arrays. *)
Definition truncated (startDate endDate : Date) (st : state)
    : heap * list ref * list ref * list ref :=
  let '(h, publisherIntervals) :=
    truncateIntervals startDate endDate (objects st) (intervals (publisher st)) in
  let '(h, subscriberIntervals) :=
    truncateIntervals startDate endDate h (intervals (subscriber st)) in
  let '(h, bothIntervals) :=
    truncateIntervals startDate endDate h (intervals (both st)) in
  (h, publisherIntervals, subscriberIntervals, bothIntervals).

(** The part of the callback after the loop: truncation of the three arrays
    and the aggregate statistics. *)
Definition reduce (startDate endDate : Date) (st : state) : result stats :=
  let '(h, publisherIntervals, subscriberIntervals, bothIntervals) :=
    truncated startDate endDate st in
  let durationMillis := sub (getTime endDate) (getTime startDate) in
  '(publisherPresentMillis, earliestPublisherPresent) ←
    aggregate h publisherIntervals;
  '(subscriberPresentMillis, earliestSubscriberPresent) ←
    aggregate h subscriberIntervals;
  '(bothPresentMillis, earliestBothPresent) ← aggregate h bothIntervals;
  Ok (mkStats durationMillis
        publisherPresentMillis (percent publisherPresentMillis durationMillis)
        earliestPublisherPresent
        subscriberPresentMillis (percent subscriberPresentMillis durationMillis)
        earliestSubscriberPresent
        bothPresentMillis (percent bothPresentMillis durationMillis)
        earliestBothPresent).

(** The callback of [presence.history], once [err] is known to be unset. *)
Definition history_callback (startDate endDate : Date) (items : list item)
    : result stats :=
  st ← for_of initial items;
  reduce startDate endDate st.

(** [processDelivery(client, {id, start, end})]; [err] and [items] are what
    the history query of the channel hands to the callback: [err] is the
    error, as a string, when the query failed. The [catch] branch is kept as
    the source has it, although [new_Date] never throws. *)
Definition processDelivery (start end_ : DateArg) (err : option string)
    (items : list item) : outcome :=
  match (startDate ← new_Date start; endDate ← new_Date end_;
         Ok (startDate, endDate)) with
  | Throw e =>
      Rejected (String.append "Unable to parse given date time bounds: " e)
  | Ok (startDate, endDate) =>
      if ge (getTime startDate) (getTime endDate) then
        Rejected "Incompatible time bounds given; end is not later than start"
      else
        match err with
        | Some e =>
            Rejected (String.append "Unable to query presence for delivery: " e)
        | None =>
            match history_callback startDate endDate items with
            | Ok r => Resolved r
            | Throw e => Uncaught e
            end
        end
  end.

End ProcessDelivery.

(** ** The value view of the loop state

    What the interval arrays and the current-interval variables hold, read
    through the heap: the closed intervals of a track as pairs of dates, in
    the order they were pushed, and the start of its open interval. The
    proofs follow the loop on this view. *)

Record view : Type := mkView {
  closed : list (Date * Date);
  opened : option Date
}.

Definition isSome {A} (o : option A) : bool :=
  match o with Some _ => true | None => false end.

Definition vtransition (timestamp : Date) (newPresence : bool) (v : view)
    : view :=
  match newPresence, opened v with
  | true, None => mkView (closed v) (Some timestamp)
  | false, Some s => mkView (closed v ++ [(s, timestamp)]) None
  | _, _ => v
  end.

Record views : Type := mkViews {
  vpublisher : view;
  vsubscriber : view;
  vboth : view
}.

Definition vinitial : views :=
  mkViews (mkView [] None) (mkView [] None) (mkView [] None).

(** The references a track holds. *)
Definition owned (t : track) : list ref :=
  intervals t ++ option_list (current t).

(** A closed interval object, read as a pair. *)
Definition closed_at (h : heap) (r : ref) (se : Date * Date) : Prop :=
  ∃ i, h !! r = Some i ∧ start i = se.1 ∧ end_ i = Some se.2.

Definition open_at (h : heap) (c : option ref) (o : option Date) : Prop :=
  match c, o with
  | None, None => True
  | Some r, Some s => ∃ i, h !! r = Some i ∧ start i = s ∧ end_ i = None
  | _, _ => False
  end.

Definition sim (h : heap) (t : track) (v : view) : Prop :=
  present t = isSome (opened v)
  ∧ Forall2 (closed_at h) (intervals t) (closed v)
  ∧ open_at h (current t) (opened v).

(** Every object of the heap is held exactly once. *)
Definition Sim (st : state) (vs : views) : Prop :=
  sim (objects st) (publisher st) (vpublisher vs)
  ∧ sim (objects st) (subscriber st) (vsubscriber vs)
  ∧ sim (objects st) (both st) (vboth vs)
  ∧ seq 0 (length (objects st))
      ≡ₚ owned (publisher st) ++ owned (subscriber st) ++ owned (both st).

(** What [truncateIntervals] does to one interval object: whether it keeps
    it, and the fields it leaves in it. *)
Definition survives (startDate endDate : Date) (h : heap) (r : ref) : bool :=
  match h !! r with
  | Some i =>
      negb (ge (getTime (start i)) (getTime endDate)
            || le (end_number i) (getTime startDate))
  | None => false
  end.

Definition clamp (startDate endDate : Date) (i : interval) : interval :=
  let i1 :=
    if lt (getTime (start i)) (getTime startDate)
    then set_start startDate i else i in
  if gt (end_number i) (getTime endDate) then set_end endDate i1 else i1.

(** Clipping and aggregation on pairs. *)
Definition clip1 (startDate endDate : Date) (se : Date * Date)
    : option (Date * Date) :=
  if ge (getTime se.1) (getTime endDate) || le (getTime se.2) (getTime startDate)
  then None
  else Some (if lt (getTime se.1) (getTime startDate) then startDate else se.1,
             if gt (getTime se.2) (getTime endDate) then endDate else se.2).

Definition clip (startDate endDate : Date) (l : list (Date * Date))
    : list (Date * Date) :=
  omap (clip1 startDate endDate) l.

Definition total (l : list (Date * Date)) : option Z :=
  foldl (λ acc se, add acc (sub (getTime se.2) (getTime se.1))) (Some 0) l.

Definition earliest (l : list (Date * Date)) : value :=
  match l with
  | [] => VNumber 0
  | se :: _ => VDate se.1
  end.

Definition vstats (startDate endDate : Date) (vs : views) : stats :=
  let d := sub (getTime endDate) (getTime startDate) in
  let p := clip startDate endDate (closed (vpublisher vs)) in
  let s := clip startDate endDate (closed (vsubscriber vs)) in
  let b := clip startDate endDate (closed (vboth vs)) in
  mkStats d (total p) (percent (total p) d) (earliest p)
    (total s) (percent (total s) d) (earliest s)
    (total b) (percent (total b) d) (earliest b).

(** Closed intervals with valid dates that follow one another between [lo]
    and [hi]. *)
Fixpoint chain (lo : Z) (l : list (Date * Date)) (hi : Z) : Prop :=
  match l with
  | [] => lo ≤ hi
  | se :: l' =>
      ∃ s e, se = (mkDate (Some s), mkDate (Some e))
             ∧ lo ≤ s ∧ s ≤ e ∧ chain e l' hi
  end.

Definition timed (now : Z) (v : view) : Prop :=
  ∃ lo m, chain lo (closed v) m
          ∧ match opened v with
            | None => m ≤ now
            | Some d => ∃ s, d = mkDate (Some s) ∧ m ≤ s ∧ s ≤ now
            end.

Definition timed3 (now : Z) (vs : views) : Prop :=
  timed now (vpublisher vs) ∧ timed now (vsubscriber vs)
  ∧ timed now (vboth vs).

(** The first pair has a valid start, and no later pair starts before it. *)
Definition first_is_least (l : list (Date * Date)) : Prop :=
  match l with
  | [] => True
  | se :: l' =>
      ∃ s0, se.1 = mkDate (Some s0)
            ∧ Forall (λ se', ∃ s, se'.1 = mkDate (Some s) ∧ s0 ≤ s) l'
  end.

(** The same on an array of interval objects, and the value an
    [earliest...Present] variable takes from it. *)
Definition start_time (h : heap) (r : ref) : option Z :=
  i ← h !! r; getTime (start i).

Definition chronological_first (h : heap) (l : list ref) : Prop :=
  match l with
  | [] => True
  | r :: l' =>
      ∃ t0, start_time h r = Some t0
            ∧ Forall (λ r', ∃ t, start_time h r' = Some t ∧ t0 ≤ t) l'
  end.

Definition first_start (h : heap) (l : list ref) : value :=
  match l with
  | [] => VNumber 0
  | r :: _ =>
      match h !! r with
      | Some i => VDate (start i)
      | None => VNumber 0
      end
  end.

Section Views.

Variable Date_parse : string → option Z.

Definition vstep (vs : views) (it : item) : views :=
  let timestamp := mkDate (time_value Date_parse (timestamp it)) in
  let newPresence := enter_or_update (action it) in
  if is_PUBLISHER (type it) then
    mkViews (vtransition timestamp newPresence (vpublisher vs))
      (vsubscriber vs)
      (vtransition timestamp
         (newPresence && isSome (opened (vsubscriber vs))) (vboth vs))
  else
    mkViews (vpublisher vs)
      (vtransition timestamp newPresence (vsubscriber vs))
      (vtransition timestamp
         (isSome (opened (vpublisher vs)) && newPresence) (vboth vs)).

Definition vrun (vs : views) (items : list item) : views :=
  foldl vstep vs items.

(** The timestamps are valid dates and do not decrease, starting at [t0]. *)
Fixpoint nondecreasing_from (t0 : Z) (items : list item) : bool :=
  match items with
  | [] => true
  | it :: items =>
      match time_value Date_parse (timestamp it) with
      | Some t => (t0 <=? t) && nondecreasing_from t items
      | None => false
      end
  end.

Definition nondecreasing (items : list item) : bool :=
  match items with
  | [] => true
  | it :: _ =>
      match time_value Date_parse (timestamp it) with
      | Some t => nondecreasing_from t items
      | None => false
      end
  end.

End Views.

(** ** Inputs to run the model on *)

Definition PUBLISHER : option string := Some "PUBLISHER"%string.
Definition SUBSCRIBER : option string := Some "SUBSCRIBER"%string.

Definition scenario : list item :=
  [ mkItem PUBLISHER "enter" (Epoch 0);
    mkItem SUBSCRIBER "enter" (Epoch 10);
    mkItem PUBLISHER "leave" (Epoch 20);
    mkItem SUBSCRIBER "leave" (Epoch 30) ].

(** The publisher enters and never leaves; the subscriber comes and goes. *)
Definition publisher_stays : list item :=
  [ mkItem PUBLISHER "enter" (Epoch 0);
    mkItem SUBSCRIBER "enter" (Epoch 10);
    mkItem SUBSCRIBER "leave" (Epoch 20) ].

(** The publisher enters and nothing else happens. *)
Definition publisher_enters : list item :=
  [ mkItem PUBLISHER "enter" (Epoch 0) ].


(** A closed interval object from [s] to [e]. *)
Definition closed_interval (s e : Z) : interval :=
  mkInterval PUBLISHER "enter" (mkDate (Some s)) (Some (mkDate (Some e))).

(** ** Presence, read off the events *)

(** Whether the last event of a role was an enter or an update; [false]
    when the role has no event. The publisher's events are those tagged
    PUBLISHER, the subscriber's all the others. *)
Definition last_presence (publisher_role : bool) (items : list item) : bool :=
  foldl (λ acc it,
           if eqb (is_PUBLISHER (type it)) publisher_role
           then enter_or_update (action it) else acc)
    false items.

(** An update by the publisher, and a leave by the publisher. *)
Definition publisher_update : item := mkItem PUBLISHER "update" (Epoch 7).


(** ** Lengths inside the window *)

(** What the window from [ws] to [we] leaves of an interval from [s] to
    [e]: nothing when the interval is discarded, else the clamped end minus
    the clamped start. *)
Definition zlen (ws we s e : Z) : Z :=
  if (we <=? s) || (e <=? ws) then 0
  else (if we <? e then we else e) - (if s <? ws then ws else s).

Definition vlen (ws we : Z) (se : Date * Date) : Z :=
  match getTime se.1, getTime se.2 with
  | Some s, Some e => zlen ws we s e
  | _, _ => 0
  end.

Fixpoint ztotal (ws we : Z) (l : list (Date * Date)) : Z :=
  match l with
  | [] => 0
  | se :: l' => vlen ws we se + ztotal ws we l'
  end.




(** An interval object with valid dates inside the window. *)
Definition within (ws we : Z) (h : heap) (r : ref) : Prop :=
  ∃ i s e, h !! r = Some i ∧ start i = mkDate (Some s)
           ∧ end_ i = Some (mkDate (Some e))
           ∧ ws ≤ s ∧ s ≤ e ∧ e ≤ we.

(** Two interval objects, the first ending no later than the second
    starts. *)
Definition precedes (h : heap) (r1 r2 : ref) : Prop :=
  ∃ i1 i2 e s, h !! r1 = Some i1 ∧ h !! r2 = Some i2
               ∧ end_ i1 = Some (mkDate (Some e))
               ∧ start i2 = mkDate (Some s) ∧ e ≤ s.

(** The publisher and the subscriber each come and go twice. *)
Definition two_visits : list item :=
  [ mkItem PUBLISHER "enter" (Epoch 0);
    mkItem SUBSCRIBER "enter" (Epoch 5);
    mkItem PUBLISHER "leave" (Epoch 10);
    mkItem PUBLISHER "enter" (Epoch 20);
    mkItem SUBSCRIBER "leave" (Epoch 25);
    mkItem PUBLISHER "leave" (Epoch 40) ].

(** ** Events on one side of the window *)

(** Every event has a valid timestamp at or after [t]; every event has a
    valid timestamp at or before [t]. *)
Definition all_from (Date_parse : string → option Z) (t : Z)
    (items : list item) : bool :=
  forallb (λ it, ge (time_value Date_parse (timestamp it)) (Some t)) items.

Definition all_until (Date_parse : string → option Z) (t : Z)
    (items : list item) : bool :=
  forallb (λ it, le (time_value Date_parse (timestamp it)) (Some t)) items.

(** Every date of a view passes the test [f]. *)
Definition dated (f : option Z → bool) (v : view) : Prop :=
  Forall (λ se, f (getTime se.1) = true ∧ f (getTime se.2) = true) (closed v)
  ∧ ∀ d, opened v = Some d → f (getTime d) = true.

(** A heap of three interval objects. *)
Definition three_intervals : list interval :=
  [closed_interval (-5) 15; closed_interval 20 25; closed_interval 3 4].

(** The Date of an unparseable string. *)
Definition Invalid_Date : Date := mkDate None.

(** * Proofs *)

(** ** The heap under the loop *)

Lemma Forall2_impl_elem {A B} (P Q : A → B → Prop) (l : list A) (k : list B) :
  Forall2 P l k → (∀ x y, x ∈ l → P x y → Q x y) → Forall2 Q l k.
Proof.
  induction 1 as [|x y l k Hxy _ IH]; intros HPQ; constructor.
  - apply HPQ; [left|done].
  - apply IH. intros x' y' Hx'. apply HPQ. by right.
Qed.

Lemma closed_at_agree (h h' : heap) (r : ref) se :
  h' !! r = h !! r → closed_at h r se → closed_at h' r se.
Proof. intros E (i & H1 & H2). exists i. by rewrite E. Qed.

Lemma open_at_agree (h h' : heap) (c : option ref) o :
  (∀ r, c = Some r → h' !! r = h !! r) → open_at h c o → open_at h' c o.
Proof.
  destruct c as [r|], o as [s|]; simpl; try done.
  intros E (i & H1 & H2). exists i. by rewrite E.
Qed.

Lemma sim_agree (h h' : heap) (t : track) (v : view) :
  (∀ r, r ∈ owned t → h' !! r = h !! r) → sim h t v → sim h' t v.
Proof.
  intros E (Hp & Hc & Ho). split; [done|]. split.
  - eapply Forall2_impl_elem; [exact Hc|].
    intros r se Hr Hat. eapply closed_at_agree; [|exact Hat].
    apply E. unfold owned. apply elem_of_app. by left.
  - eapply open_at_agree; [|exact Ho].
    intros r Hr. apply E. unfold owned. rewrite Hr. apply elem_of_app. right.
    simpl. by apply list_elem_of_singleton.
Qed.

Lemma sim_extend (h : heap) (i : interval) (t : track) (v : view) :
  sim h t v → sim (h ++ [i]) t v.
Proof.
  intros (Hp & Hc & Ho). split; [done|]. split.
  - eapply Forall2_impl; [exact Hc|].
    intros r se (j & H1 & H2). exists j. split; [|done].
    by apply lookup_app_l_Some.
  - destruct (current t) as [r|], (opened v) as [s|]; simpl in *; try done.
    destruct Ho as (j & H1 & H2). exists j. split; [|done].
    by apply lookup_app_l_Some.
Qed.

Lemma transition_sim who a ts np (h : heap) (t : track) (v : view)
    (others : list ref) :
  sim h t v →
  seq 0 (length h) ≡ₚ owned t ++ others →
  ∃ h' t',
    transition who a ts np h t = Ok (h', t')
    ∧ sim h' t' (vtransition ts np v)
    ∧ seq 0 (length h') ≡ₚ owned t' ++ others
    ∧ (∀ t2 v2, owned t2 ⊆ others → sim h t2 v2 → sim h' t2 v2)
    ∧ present t' = np
    ∧ (∀ r, r ∈ others → h' !! r = h !! r)
    ∧ ((np = present t ∧ h' = h ∧ t' = t)
       ∨ (np = true ∧ present t = false
          ∧ h' = h ++ [mkInterval who a ts None]
          ∧ t' = mkTrack true (intervals t) (Some (length h)))
       ∨ (np = false ∧ present t = true
          ∧ ∃ r i, current t = Some r ∧ h !! r = Some i
                   ∧ h' = alter (set_end ts) r h
                   ∧ t' = mkTrack false (intervals t ++ [r]) None)).
Proof.
  intros (Hp & Hc & Ho) Hperm.
  unfold transition, vtransition.
  destruct np, (present t) eqn:Ep, (opened v) as [s|] eqn:Eo;
    simpl in Hp; try discriminate; simpl.
  - exists h, t. split; [done|]. split; [|by eauto 10].
    split; [by rewrite Ep, Eo|]. split; [done|by rewrite Eo].
  - destruct (current t) as [r|] eqn:Ec; simpl in Ho; [done|].
    assert (Hvalid : ∀ r : ref, r ∈ others →
                       (h ++ [mkInterval who a ts None]) !! r = h !! r).
    { intros r Hr. apply lookup_app_l.
      assert (Hr' : r ∈ seq 0 (length h)).
      { rewrite Hperm. apply elem_of_app. by right. }
      apply elem_of_seq in Hr'. lia. }
    eexists _, _. split; [reflexivity|].
    split; [|split; [|split; [|split; [|split]]]].
    + split; [done|]. split; simpl.
      * eapply Forall2_impl; [exact Hc|].
        intros r se (j & H1 & H2). exists j. split; [|done].
        by apply lookup_app_l_Some.
      * eexists. split; [apply list_lookup_middle; reflexivity|done].
    + rewrite length_app. simpl. rewrite Nat.add_1_r, seq_S. simpl.
      unfold owned in *. rewrite Ec in Hperm. simpl in *.
      rewrite app_nil_r in Hperm. rewrite Hperm.
      rewrite <- !app_assoc. apply Permutation_app_head.
      apply Permutation_app_comm.
    + intros t2 v2 _. apply sim_extend.
    + done.
    + done.
    + right. left. done.
  - destruct (current t) as [r|] eqn:Ec; simpl in Ho; [|done].
    destruct Ho as (i & Hi & Hs & He).
    assert (Hnd : NoDup (owned t ++ others)).
    { rewrite <- Hperm. apply NoDup_seq. }
    apply NoDup_app in Hnd as (Hnd1 & Hnd2 & Hnd3).
    unfold owned in Hnd1, Hnd2. rewrite Ec in Hnd1, Hnd2. simpl in *.
    apply NoDup_app in Hnd1 as (Hnd4 & Hnd5 & _).
    assert (Hframe : ∀ r', r' ∈ others →
                       alter (set_end ts) r h !! r' = h !! r').
    { intros r' Hr'. apply list_lookup_alter_ne. intros ->.
      eapply (Hnd2 r'); [|done].
      apply elem_of_app. right. by apply list_elem_of_singleton. }
    eexists _, _. split; [reflexivity|].
    split; [|split; [|split; [|split; [|split]]]].
    + split; [done|]. split; simpl; [|done].
      apply Forall2_app.
      * eapply Forall2_impl_elem; [exact Hc|].
        intros r' se Hr'. apply closed_at_agree.
        apply list_lookup_alter_ne. intros ->.
        eapply Hnd5; [exact Hr'|]. by apply list_elem_of_singleton.
      * constructor; [|constructor].
        exists (set_end ts i). split; [|by rewrite <- Hs].
        rewrite list_lookup_alter_eq, Hi. done.
    + rewrite length_alter. unfold owned in *. rewrite Ec in Hperm.
      simpl in *. by rewrite app_nil_r.
    + intros t2 v2 Hsub. apply sim_agree.
      intros r' Hr'. by apply Hframe, Hsub.
    + done.
    + done.
    + right. right. split; [done|]. split; [done|]. by exists r, i.
  - exists h, t. split; [done|]. split; [|by eauto 10].
    split; [by rewrite Ep, Eo|]. split; [done|by rewrite Eo].
Qed.

Section Simulation.

Variable Date_parse : string → option Z.

Lemma Sim_initial : Sim initial vinitial.
Proof. repeat split; constructor. Qed.

Lemma loop_body_sim (st : state) (vs : views) (it : item) :
  Sim st vs →
  ∃ st', loop_body Date_parse st it = Ok st'
         ∧ Sim st' (vstep Date_parse vs it).
Proof.
  destruct st as [h P S B], vs as [vP vS vB].
  intros (HP & HS & HB & Hperm). simpl in *.
  unfold loop_body, vstep, new_Date. simpl.
  destruct (is_PUBLISHER (type it)).
  - destruct (transition_sim (type it) (action it)
                (mkDate (time_value Date_parse (timestamp it)))
                (enter_or_update (action it)) h P vP
                (owned S ++ owned B) HP Hperm)
      as (h1 & P' & E1 & HP' & Hperm1 & Hframe1 & Hpres & _).
    rewrite E1. simpl.
    assert (HS1 : sim h1 S vS).
    { apply Hframe1; [|done]. intros r Hr. apply elem_of_app. by left. }
    assert (HB1 : sim h1 B vB).
    { apply Hframe1; [|done]. intros r Hr. apply elem_of_app. by right. }
    assert (Hperm1' : seq 0 (length h1) ≡ₚ owned B ++ (owned P' ++ owned S)).
    { rewrite Hperm1. rewrite (Permutation_app_comm (owned B)).
      by rewrite app_assoc. }
    destruct (transition_sim (Some "BOTH"%string) (action it)
                (mkDate (time_value Date_parse (timestamp it)))
                (enter_or_update (action it) && present S) h1 B vB
                (owned P' ++ owned S) HB1 Hperm1')
      as (h2 & B' & E2 & HB' & Hperm2 & Hframe2 & _ & _).
    rewrite E2. simpl. eexists. split; [reflexivity|].
    destruct HS as (HSp & _). rewrite <- HSp.
    split; [|split; [|split]]; simpl.
    + apply Hframe2; [|done]. intros r Hr. apply elem_of_app. by left.
    + apply Hframe2; [|done]. intros r Hr. apply elem_of_app. by right.
    + done.
    + rewrite Hperm2. rewrite (Permutation_app_comm (owned B')).
      by rewrite app_assoc.
  - assert (Hperm0 : seq 0 (length h) ≡ₚ owned S ++ (owned P ++ owned B)).
    { rewrite Hperm. rewrite !app_assoc.
      by rewrite (Permutation_app_comm (owned P)). }
    destruct (transition_sim (type it) (action it)
                (mkDate (time_value Date_parse (timestamp it)))
                (enter_or_update (action it)) h S vS
                (owned P ++ owned B) HS Hperm0)
      as (h1 & S' & E1 & HS' & Hperm1 & Hframe1 & Hpres & _).
    rewrite E1. simpl.
    assert (HP1 : sim h1 P vP).
    { apply Hframe1; [|done]. intros r Hr. apply elem_of_app. by left. }
    assert (HB1 : sim h1 B vB).
    { apply Hframe1; [|done]. intros r Hr. apply elem_of_app. by right. }
    assert (Hperm1' : seq 0 (length h1) ≡ₚ owned B ++ (owned P ++ owned S')).
    { rewrite Hperm1. rewrite (Permutation_app_comm (owned B)).
      rewrite !app_assoc. by rewrite (Permutation_app_comm (owned P)). }
    destruct (transition_sim (Some "BOTH"%string) (action it)
                (mkDate (time_value Date_parse (timestamp it)))
                (present P && enter_or_update (action it)) h1 B vB
                (owned P ++ owned S') HB1 Hperm1')
      as (h2 & B' & E2 & HB' & Hperm2 & Hframe2 & _ & _).
    rewrite E2. simpl. eexists. split; [reflexivity|].
    destruct HP as (HPp & _). rewrite <- HPp.
    split; [|split; [|split]]; simpl.
    + apply Hframe2; [|done]. intros r Hr. apply elem_of_app. by left.
    + apply Hframe2; [|done]. intros r Hr. apply elem_of_app. by right.
    + done.
    + rewrite Hperm2. rewrite (Permutation_app_comm (owned B')).
      by rewrite app_assoc.
Qed.

Lemma for_of_sim (items : list item) (st : state) (vs : views) :
  Sim st vs →
  ∃ st', for_of Date_parse st items = Ok st'
         ∧ Sim st' (vrun Date_parse vs items).
Proof.
  revert st vs. induction items as [|it items IH]; intros st vs HS; simpl.
  - by exists st.
  - destruct (loop_body_sim st vs it HS) as (st1 & E1 & HS1).
    rewrite E1. simpl. by apply IH.
Qed.

Lemma for_of_app (st : state) (l1 l2 : list item) :
  for_of Date_parse st (l1 ++ l2)
  = st' ← for_of Date_parse st l1; for_of Date_parse st' l2.
Proof.
  revert st. induction l1 as [|it l1 IH]; intros st; simpl; [done|].
  destruct (loop_body Date_parse st it); simpl; [apply IH|done].
Qed.

End Simulation.

(** ** Truncation *)

Lemma filter_ext_elem {A} (P Q : A → Prop) `{∀ x, Decision (P x)}
    `{∀ x, Decision (Q x)} (l : list A) :
  (∀ x, x ∈ l → P x ↔ Q x) → filter P l = filter Q l.
Proof.
  induction l as [|x l IH]; intros HPQ; [done|].
  rewrite !filter_cons.
  assert (HPQx : P x ↔ Q x) by (apply HPQ; left).
  rewrite IH by (intros y Hy; apply HPQ; by right).
  destruct (decide (P x)), (decide (Q x)); tauto.
Qed.

Lemma survives_agree sd ed (h h' : heap) (r : ref) :
  h' !! r = h !! r → survives sd ed h' r = survives sd ed h r.
Proof. unfold survives. by intros ->. Qed.

Lemma truncate_one sd ed (h : heap) (acc : list ref) (r : ref) :
  truncate sd ed (h, acc) r
  = if survives sd ed h r then (alter (clamp sd ed) r h, acc ++ [r])
    else (h, acc).
Proof.
  unfold truncate, survives. destruct (h !! r) as [i|] eqn:Hi; [|done].
  destruct (ge _ _ || le _ _); simpl; [done|]. f_equal.
  destruct (lt _ _) eqn:E1, (gt _ _) eqn:E2.
  - rewrite list_alter_alter_eq. apply list_alter_ext; [|done].
    intros x Hx. assert (x = i) as -> by congruence.
    unfold clamp. by rewrite E1, E2.
  - apply list_alter_ext; [|done].
    intros x Hx. assert (x = i) as -> by congruence.
    unfold clamp. by rewrite E1, E2.
  - apply list_alter_ext; [|done].
    intros x Hx. assert (x = i) as -> by congruence.
    unfold clamp. by rewrite E1, E2.
  - symmetry. etrans; [|apply (list_alter_id id); done].
    apply list_alter_ext; [|done].
    intros x Hx. assert (x = i) as -> by congruence.
    unfold clamp. by rewrite E1, E2.
Qed.

Lemma truncate_fold sd ed (l : list ref) :
  NoDup l → ∀ (h : heap) (acc : list ref), ∃ h',
    foldl (truncate sd ed) (h, acc) l
    = (h', acc ++ filter (λ r, survives sd ed h r = true) l)
    ∧ length h' = length h
    ∧ ∀ r, h' !! r
           = if bool_decide (r ∈ l) && survives sd ed h r
             then clamp sd ed <$> h !! r else h !! r.
Proof.
  induction 1 as [|r l Hr Hnd IH]; intros h acc.
  - exists h. simpl. by rewrite app_nil_r.
  - cbn [foldl]. rewrite truncate_one.
    destruct (survives sd ed h r) eqn:Es.
    + destruct (IH (alter (clamp sd ed) r h) (acc ++ [r]))
        as (h' & E & Hlen & Hlook).
      exists h'. split; [|split].
      * rewrite E, <- app_assoc. f_equal. f_equal.
        rewrite filter_cons_True by done. simpl. f_equal.
        apply filter_ext_elem. intros x Hx.
        rewrite (survives_agree sd ed h); [done|].
        apply list_lookup_alter_ne. by intros ->.
      * by rewrite Hlen, length_alter.
      * intros r0. rewrite Hlook. destruct (decide (r0 = r)) as [->|Hne].
        -- rewrite (bool_decide_eq_false_2 (r ∈ l)) by done. simpl.
           rewrite (bool_decide_eq_true_2 (r ∈ r :: l)) by left.
           rewrite Es. simpl. apply list_lookup_alter_eq.
        -- rewrite (survives_agree sd ed h) by (by apply list_lookup_alter_ne).
           rewrite list_lookup_alter_ne by done.
           assert (bool_decide (r0 ∈ l) = bool_decide (r0 ∈ r :: l)) as ->;
             [|done].
           apply bool_decide_ext. rewrite elem_of_cons. tauto.
    + destruct (IH h acc) as (h' & E & Hlen & Hlook).
      exists h'. split; [|split; [done|]].
      * rewrite E. f_equal. f_equal.
        rewrite filter_cons_False; [done|]. by rewrite Es.
      * intros r0. rewrite Hlook. destruct (decide (r0 = r)) as [->|Hne].
        -- rewrite (bool_decide_eq_false_2 (r ∈ l)) by done. simpl.
           rewrite Es. by rewrite andb_false_r.
        -- assert (bool_decide (r0 ∈ l) = bool_decide (r0 ∈ r :: l)) as ->;
             [|done].
           apply bool_decide_ext. rewrite elem_of_cons. tauto.
Qed.

Lemma filter_closed sd ed (h h' : heap) (l : list ref) vs :
  (∀ r, r ∈ l →
        h' !! r = if survives sd ed h r then clamp sd ed <$> h !! r
                  else h !! r) →
  Forall2 (closed_at h) l vs →
  Forall2 (closed_at h') (filter (λ r, survives sd ed h r = true) l)
    (clip sd ed vs).
Proof.
  intros Hlook HF. induction HF as [|r se l vs (i & Hi & Hs & He) HF IH].
  - constructor.
  - assert (Hr := Hlook r (list_elem_of_here _ _)).
    assert (IH' := IH (λ r' Hr', Hlook r' (list_elem_of_further _ _ _ Hr'))).
    unfold clip. cbn [omap list_omap]. fold (clip sd ed vs).
    unfold survives in Hr |- *. rewrite filter_cons. rewrite Hi in Hr |- *.
    unfold clip1, end_number in *. rewrite He, Hs in *.
    destruct (ge _ _ || le _ _) eqn:Ec; simpl in *.
    + destruct (decide (false = true)); done.
    + destruct (decide (true = true)); [|done].
      constructor; [|done].
      exists (clamp sd ed i). split; [done|].
      unfold clamp, end_number. rewrite He, Hs.
      destruct (lt _ _), (gt _ _); simpl; done.
Qed.

Lemma truncateIntervals_closed sd ed (h : heap) (l : list ref) vs :
  NoDup l →
  Forall2 (closed_at h) l vs →
  ∃ h' l',
    truncateIntervals sd ed h l = (h', l')
    ∧ Forall2 (closed_at h') l' (clip sd ed vs)
    ∧ l' ⊆ l
    ∧ ∀ r, r ∉ l → h' !! r = h !! r.
Proof.
  intros Hnd HF. unfold truncateIntervals.
  destruct (truncate_fold sd ed l Hnd h []) as (h' & E & _ & Hlook).
  eexists _, _. split; [exact E|]. simpl. split; [|split].
  - apply filter_closed; [|done]. intros r Hr. rewrite Hlook.
    by rewrite bool_decide_eq_true_2.
  - intros r Hr. by apply list_elem_of_filter in Hr as [_ ?].
  - intros r Hr. rewrite Hlook. by rewrite bool_decide_eq_false_2.
Qed.

(** ** Aggregation *)

Lemma aggregate_fold (h : heap) (l : list ref) vs :
  Forall2 (closed_at h) l vs →
  ∀ m v,
    foldl (accumulate h) (Ok (m, v)) l
    = Ok (foldl (λ acc se, add acc (sub (getTime se.2) (getTime se.1))) m vs,
          if strict_eq_0 v then
            match vs with [] => v | se :: _ => VDate se.1 end
          else v).
Proof.
  induction 1 as [|r se l vs (i & Hi & Hs & He) HF IH]; intros m v.
  - simpl. by destruct (strict_eq_0 v).
  - cbn [foldl]. unfold accumulate at 2. simpl. rewrite Hi, He, IH, Hs.
    destruct (strict_eq_0 v) eqn:Ev; simpl; [done|]. by rewrite Ev.
Qed.

Lemma aggregate_closed (h : heap) (l : list ref) vs :
  Forall2 (closed_at h) l vs → aggregate h l = Ok (total vs, earliest vs).
Proof.
  intros HF. unfold aggregate. rewrite (aggregate_fold h l vs HF).
  simpl. by destruct vs.
Qed.

Lemma closed_frame (h h' : heap) (l l2 : list ref) vs :
  (∀ r, r ∉ l → h' !! r = h !! r) →
  (∀ r, r ∈ l2 → r ∉ l) →
  Forall2 (closed_at h) l2 vs → Forall2 (closed_at h') l2 vs.
Proof.
  intros Hframe Hdisj HF. eapply Forall2_impl_elem; [exact HF|].
  intros r se Hr. apply closed_at_agree. by apply Hframe, Hdisj.
Qed.

(** On arrays of closed intervals that share no object, the three
    truncations yield the clipped pairs. *)
Lemma truncated_closed sd ed (st : state) (vs : views) :
  NoDup (intervals (publisher st) ++ intervals (subscriber st)
         ++ intervals (both st)) →
  Forall2 (closed_at (objects st)) (intervals (publisher st))
    (closed (vpublisher vs)) →
  Forall2 (closed_at (objects st)) (intervals (subscriber st))
    (closed (vsubscriber vs)) →
  Forall2 (closed_at (objects st)) (intervals (both st)) (closed (vboth vs)) →
  ∃ h lP lS lB,
    truncated sd ed st = (h, lP, lS, lB)
    ∧ Forall2 (closed_at h) lP (clip sd ed (closed (vpublisher vs)))
    ∧ Forall2 (closed_at h) lS (clip sd ed (closed (vsubscriber vs)))
    ∧ Forall2 (closed_at h) lB (clip sd ed (closed (vboth vs)))
    ∧ lP ⊆ intervals (publisher st) ∧ lS ⊆ intervals (subscriber st)
    ∧ lB ⊆ intervals (both st).
Proof.
  intros Hnd HP HS HB.
  apply NoDup_app in Hnd as (NP & DP & Hnd).
  apply NoDup_app in Hnd as (NS & DSB & NB).
  assert (DPS : ∀ r, r ∈ intervals (publisher st) → r ∉ intervals (subscriber st)).
  { intros r Hr Hr'. eapply (DP r); rewrite ?elem_of_app; eauto. }
  assert (DPB : ∀ r, r ∈ intervals (publisher st) → r ∉ intervals (both st)).
  { intros r Hr Hr'. eapply (DP r); rewrite ?elem_of_app; eauto. }
  unfold truncated.
  destruct (truncateIntervals_closed sd ed _ _ _ NP HP)
    as (h1 & lP & E1 & HP1 & Hsub1 & Hfr1).
  rewrite E1.
  assert (HS1 := closed_frame _ _ _ _ _ Hfr1
                   (λ r Hr HrP, DPS r HrP Hr) HS).
  assert (HB1 := closed_frame _ _ _ _ _ Hfr1
                   (λ r Hr HrP, DPB r HrP Hr) HB).
  destruct (truncateIntervals_closed sd ed _ _ _ NS HS1)
    as (h2 & lS & E2 & HS2 & Hsub2 & Hfr2).
  rewrite E2.
  assert (HP2 := closed_frame _ _ _ _ _ Hfr2
                   (λ r Hr, DPS r (Hsub1 r Hr)) HP1).
  assert (HB2 := closed_frame _ _ _ _ _ Hfr2
                   (λ r Hr HrS, DSB r HrS Hr) HB1).
  destruct (truncateIntervals_closed sd ed _ _ _ NB HB2)
    as (h3 & lB & E3 & HB3 & Hsub3 & Hfr3).
  rewrite E3.
  assert (HP3 := closed_frame _ _ _ _ _ Hfr3
                   (λ r Hr, DPB r (Hsub1 r Hr)) HP2).
  assert (HS3 := closed_frame _ _ _ _ _ Hfr3
                   (λ r Hr, DSB r (Hsub2 r Hr)) HS2).
  by eexists _, _, _, _.
Qed.

(** The statistics are those of the value view: truncation and aggregation
    never throw on such arrays. *)
Lemma reduce_closed sd ed (st : state) (vs : views) :
  NoDup (intervals (publisher st) ++ intervals (subscriber st)
         ++ intervals (both st)) →
  Forall2 (closed_at (objects st)) (intervals (publisher st))
    (closed (vpublisher vs)) →
  Forall2 (closed_at (objects st)) (intervals (subscriber st))
    (closed (vsubscriber vs)) →
  Forall2 (closed_at (objects st)) (intervals (both st)) (closed (vboth vs)) →
  reduce sd ed st = Ok (vstats sd ed vs).
Proof.
  intros Hnd HP HS HB.
  destruct (truncated_closed sd ed st vs Hnd HP HS HB)
    as (h & lP & lS & lB & E & HP' & HS' & HB' & _).
  unfold reduce. rewrite E.
  rewrite (aggregate_closed _ _ _ HP'). simpl.
  rewrite (aggregate_closed _ _ _ HS'). simpl.
  rewrite (aggregate_closed _ _ _ HB'). simpl.
  done.
Qed.

Lemma Sim_NoDup (st : state) (vs : views) :
  Sim st vs →
  NoDup (intervals (publisher st) ++ intervals (subscriber st)
         ++ intervals (both st)).
Proof.
  intros (_ & _ & _ & Hperm).
  assert (Hnd : NoDup (owned (publisher st) ++ owned (subscriber st)
                       ++ owned (both st))).
  { rewrite <- Hperm. apply NoDup_seq. }
  eapply sublist_NoDup; [exact Hnd|]. unfold owned.
  repeat apply sublist_app; try apply sublist_inserts_r; done.
Qed.

Lemma reduce_sim sd ed (st : state) (vs : views) :
  Sim st vs → reduce sd ed st = Ok (vstats sd ed vs).
Proof.
  intros HS. apply reduce_closed.
  - by eapply Sim_NoDup.
  - apply HS.
  - apply HS.
  - apply HS.
Qed.

Section Callback.

Variable Date_parse : string → option Z.

Lemma history_callback_views sd ed (items : list item) :
  history_callback Date_parse sd ed items
  = Ok (vstats sd ed (vrun Date_parse vinitial items)).
Proof.
  unfold history_callback.
  destruct (for_of_sim Date_parse items initial vinitial Sim_initial)
    as (st & E & HS).
  rewrite E. simpl. by apply reduce_sim.
Qed.

End Callback.

(** ** Intervals in time order *)

Lemma chain_le lo l hi : chain lo l hi → lo ≤ hi.
Proof.
  revert lo. induction l as [|se l IH]; intros lo; simpl; [done|].
  intros (s & e & _ & H1 & H2 & H3). apply IH in H3. lia.
Qed.

Lemma chain_hi_mono lo l hi hi' : chain lo l hi → hi ≤ hi' → chain lo l hi'.
Proof.
  revert lo. induction l as [|se l IH]; intros lo; simpl; [lia|].
  intros (s & e & E & H1 & H2 & H3) Hle. exists s, e. eauto.
Qed.

Lemma chain_lo_mono lo lo' l hi : chain lo l hi → lo' ≤ lo → chain lo' l hi.
Proof.
  destruct l as [|se l]; simpl; [lia|].
  intros (s & e & E & H1 & H2 & H3) Hle. exists s, e.
  split; [done|]. split; [lia|]. done.
Qed.

Lemma chain_snoc lo l m s e hi :
  chain lo l m → m ≤ s → s ≤ e → e ≤ hi →
  chain lo (l ++ [(mkDate (Some s), mkDate (Some e))]) hi.
Proof.
  revert lo. induction l as [|se l IH]; intros lo; simpl.
  - intros Hlo Hs He Hhi. exists s, e. split; [done|]. lia.
  - intros (s0 & e0 & E & H1 & H2 & H3) Hs He Hhi. exists s0, e0. eauto.
Qed.

Lemma timed_mono now t v : timed now v → now ≤ t → timed t v.
Proof.
  intros (lo & m & Hc & Ho) Hle. exists lo, m. split; [done|].
  destruct (opened v); [|lia].
  destruct Ho as (s & E & H1 & H2). exists s. split; [done|]. lia.
Qed.

Lemma timed_vtransition now t np v :
  timed now v → now ≤ t → timed t (vtransition (mkDate (Some t)) np v).
Proof.
  intros Ht Hle. unfold vtransition.
  destruct np, (opened v) as [d|] eqn:Eo; try by eapply timed_mono.
  - destruct Ht as (lo & m & Hc & Ho). rewrite Eo in Ho.
    exists lo, m. simpl. split; [done|]. exists t. split; [done|]. lia.
  - destruct Ht as (lo & m & Hc & Ho). rewrite Eo in Ho.
    destruct Ho as (s & -> & H1 & H2).
    exists lo, t. simpl. split; [|lia].
    eapply chain_snoc; [exact Hc|lia..].
Qed.

Lemma timed3_initial now : timed3 now vinitial.
Proof. repeat split; exists now, now; simpl; lia. Qed.

Section Timed.

Variable Date_parse : string → option Z.

Lemma timed3_vstep now t vs it :
  timed3 now vs → time_value Date_parse (timestamp it) = Some t → now ≤ t →
  timed3 t (vstep Date_parse vs it).
Proof.
  intros (HP & HS & HB) Et Hle. unfold vstep. rewrite Et.
  destruct (is_PUBLISHER (type it)); repeat split; simpl;
    (by apply (timed_vtransition now)) || (by apply (timed_mono now)).
Qed.

Lemma timed3_vrun items : ∀ now vs,
  timed3 now vs → nondecreasing_from Date_parse now items = true →
  ∃ now', timed3 now' (vrun Date_parse vs items).
Proof.
  induction items as [|it items IH]; intros now vs Ht Hnd; simpl in *.
  - by exists now.
  - destruct (time_value Date_parse (timestamp it)) as [t|] eqn:Et; [|done].
    apply andb_true_iff in Hnd as [Hle Hnd]. apply Z.leb_le in Hle.
    eapply IH; [|exact Hnd]. by eapply timed3_vstep.
Qed.

Lemma timed3_run items :
  nondecreasing Date_parse items = true →
  ∃ now, timed3 now (vrun Date_parse vinitial items).
Proof.
  destruct items as [|it items]; intros Hnd.
  - exists 0. apply timed3_initial.
  - unfold nondecreasing in Hnd.
    destruct (time_value Date_parse (timestamp it)) as [t|] eqn:Et; [|done].
    eapply timed3_vrun; [apply (timed3_initial t)|done].
Qed.

End Timed.

(** ** Clipped intervals in time order *)

Lemma total_from (l : list (Date * Date)) : ∀ a,
  foldl (λ acc se, add acc (sub (getTime se.2) (getTime se.1))) a l
  = add a (total l).
Proof.
  unfold total. induction l as [|se l IH]; intros a; cbn [foldl].
  - destruct a; simpl; [f_equal; lia|done].
  - rewrite IH. rewrite (IH (add (Some 0) _)).
    destruct a, (sub (getTime se.2) (getTime se.1)); simpl; try done.
    destruct (foldl _ _ l); simpl; [f_equal; lia|done].
Qed.

Lemma total_cons se (l : list (Date * Date)) :
  total (se :: l) = add (sub (getTime se.2) (getTime se.1)) (total l).
Proof.
  unfold total at 1. simpl. rewrite total_from.
  destruct (sub _ _); simpl; [|done]. by destruct (total l).
Qed.

Lemma clip_cons sd ed se l :
  clip sd ed (se :: l)
  = match clip1 sd ed se with
    | Some se' => se' :: clip sd ed l
    | None => clip sd ed l
    end.
Proof. done. Qed.


Lemma clip_starts ws we lo l hi :
  chain lo l hi →
  Forall (λ se', ∃ s, se'.1 = mkDate (Some s) ∧ Z.max lo ws ≤ s)
    (clip (mkDate (Some ws)) (mkDate (Some we)) l).
Proof.
  revert lo. induction l as [|se l IH]; intros lo Hc; [constructor|].
  destruct Hc as (s & e & -> & H1 & H2 & H3).
  assert (IH' := IH e H3).
  assert (IH2 : Forall (λ se', ∃ s, se'.1 = mkDate (Some s) ∧ Z.max lo ws ≤ s)
                  (clip (mkDate (Some ws)) (mkDate (Some we)) l)).
  { eapply Forall_impl; [exact IH'|]. intros se' (s' & E & Hle).
    exists s'. split; [done|]. lia. }
  rewrite clip_cons. unfold clip1. simpl.
  destruct ((we <=? s) || (e <=? ws)); [done|].
  constructor; [|done]. simpl.
  destruct (Z.ltb_spec s ws); eexists; (split; [reflexivity|]); lia.
Qed.

Lemma clip_first_is_least ws we lo l hi :
  chain lo l hi →
  first_is_least (clip (mkDate (Some ws)) (mkDate (Some we)) l).
Proof.
  revert lo. induction l as [|se l IH]; intros lo Hc; [done|].
  destruct Hc as (s & e & -> & H1 & H2 & H3).
  rewrite clip_cons. unfold clip1. simpl.
  destruct ((we <=? s) || (e <=? ws)); [by eapply IH|].
  simpl. exists (if s <? ws then ws else s).
  split; [by destruct (s <? ws)|].
  eapply Forall_impl; [by eapply (clip_starts ws we e)|].
  intros se' (s' & E & Hle). exists s'. split; [done|].
  destruct (Z.ltb_spec s ws); lia.
Qed.

(** * The claims *)

(** C1: for the events publisher enter at 0, subscriber enter at 10,
    publisher leave at 20, subscriber leave at 30 and the window from 0 to
    30, the publisher is present 20 ms, the subscriber 20 ms, both 10 ms
    (the one both-interval runs from 10 to 20), and the both-present
    percentage is 100/3. *)
Theorem scenario_aggregates (Date_parse : string → option Z) :
  ∃ st r q,
    for_of Date_parse initial scenario = Ok st
    ∧ ((λ b, objects st !! b) <$> intervals (both st))
      = [Some (mkInterval (Some "BOTH"%string) "enter" (mkDate (Some 10))
                 (Some (mkDate (Some 20))))]
    ∧ processDelivery Date_parse (Epoch 0) (Epoch 30) None scenario
      = Resolved r
    ∧ publisherPresentMillis r = Some 20
    ∧ subscriberPresentMillis r = Some 20
    ∧ bothPresentMillis r = Some 10
    ∧ bothPresentPercent r = Finite q
    ∧ (q == 100 # 3)%Q.
Proof.
  eexists _, _, _. split; [reflexivity|]. split; [reflexivity|].
  split; [reflexivity|]. simpl. repeat split.
Qed.

(** ** Window bounds that do not parse *)

Section Bounds.

Variable Date_parse : string → option Z.

Lemma new_Date_Ok (v : DateArg) :
  new_Date Date_parse v = Ok (mkDate (time_value Date_parse v)).
Proof. done. Qed.

(** When the bounds pass the test [startDate >= endDate] and the query
    succeeds, the promise resolves with the statistics of the value view. *)
Lemma processDelivery_resolved (start end_ : DateArg) (items : list item) :
  ge (time_value Date_parse start) (time_value Date_parse end_) = false →
  processDelivery Date_parse start end_ None items
  = Resolved (vstats (mkDate (time_value Date_parse start))
                (mkDate (time_value Date_parse end_))
                (vrun Date_parse vinitial items)).
Proof.
  intros Hge. unfold processDelivery. rewrite !new_Date_Ok. simpl.
  rewrite Hge. by rewrite history_callback_views.
Qed.

(** A bound that is an Invalid Date is never rejected: the comparison with
    NaN is false, and the statistics are computed over a NaN duration. *)
Lemma malformed_bound_resolved (start end_ : DateArg) (items : list item) :
  time_value Date_parse start = None ∨ time_value Date_parse end_ = None →
  ∃ r, processDelivery Date_parse start end_ None items = Resolved r
       ∧ durationMillis r = None
       ∧ publisherPresentPercent r = NaN
       ∧ subscriberPresentPercent r = NaN
       ∧ bothPresentPercent r = NaN.
Proof.
  intros Hbad. eexists. split.
  - apply processDelivery_resolved.
    destruct Hbad as [-> | ->]; [done|].
    by destruct (time_value Date_parse start).
  - assert (Hd : sub (time_value Date_parse end_)
                    (time_value Date_parse start) = None).
    { destruct Hbad as [-> | ->]; [|done].
      by destruct (time_value Date_parse end_). }
    simpl. rewrite Hd. unfold percent. repeat split; by case_match.
Qed.

End Bounds.

(** C3 (the code departs from it): a start bound that does not parse is not
    rejected. The promise resolves, with a NaN duration and NaN
    percentages. *)
Theorem unparseable_start_resolves :
  ∃ r,
    processDelivery sample_parse (DateString "tomorrow")
      (DateString "1970-01-01T00:00:00.030Z") None scenario = Resolved r
    ∧ sample_parse "tomorrow" = None
    ∧ durationMillis r = None
    ∧ publisherPresentMillis r = Some 20
    ∧ publisherPresentPercent r = NaN
    ∧ subscriberPresentPercent r = NaN
    ∧ bothPresentPercent r = NaN.
Proof. eexists. split; [reflexivity|]. repeat split. Qed.

(** C5 (the code departs from it): the publisher enters at 0 and never
    leaves, the subscriber is present from 10 to 20; over the window from 0
    to 30 the both-present time is 10 ms and the publisher-present time is
    0 ms. *)
Theorem both_exceeds_publisher (Date_parse : string → option Z) :
  ∃ r,
    processDelivery Date_parse (Epoch 0) (Epoch 30) None publisher_stays
    = Resolved r
    ∧ nondecreasing Date_parse publisher_stays = true
    ∧ publisherPresentMillis r = Some 0
    ∧ subscriberPresentMillis r = Some 10
    ∧ bothPresentMillis r = Some 10.
Proof. eexists. split; [reflexivity|]. repeat split. Qed.

(** ** Percentages *)





(** ** The earliest presence *)

Lemma earliest_first_start (h : heap) (l : list ref) vs :
  Forall2 (closed_at h) l vs → earliest vs = first_start h l.
Proof.
  destruct 1 as [|r se l vs (i & Hi & Hs & _) _]; simpl; [done|].
  by rewrite Hi, Hs.
Qed.

Lemma closed_start_time (h : heap) (r : ref) se s :
  closed_at h r se → se.1 = mkDate (Some s) → start_time h r = Some s.
Proof.
  intros (i & Hi & Hs & _) E. unfold start_time. rewrite Hi. simpl.
  by rewrite Hs, E.
Qed.

Lemma chronological_first_closed (h : heap) (l : list ref) vs :
  Forall2 (closed_at h) l vs → first_is_least vs → chronological_first h l.
Proof.
  destruct 1 as [|r se l vs Hr HF]; simpl; [done|].
  intros (s0 & E0 & Hall). exists s0. split; [by eapply closed_start_time|].
  clear Hr E0. induction HF as [|r' se' l vs Hr' HF IH]; [constructor|].
  apply Forall_cons in Hall as [(s & E & Hle) Hall].
  constructor; [|by apply IH].
  exists s. split; [by eapply closed_start_time|done].
Qed.

(** C7, amended: for non-decreasing timestamps and a valid window, each
    [earliest...Present] is the start held, after truncation, by the first
    interval of the track's truncated array, no interval of that array
    starts before it, and it is the number 0 when the array is empty. *)
Theorem earliest_is_first_surviving (Date_parse : string → option Z)
    (start end_ : DateArg) (ws we : Z) (items : list item) :
  time_value Date_parse start = Some ws →
  time_value Date_parse end_ = Some we →
  ws < we →
  nondecreasing Date_parse items = true →
  ∃ st h lP lS lB r,
    for_of Date_parse initial items = Ok st
    ∧ truncated (mkDate (Some ws)) (mkDate (Some we)) st = (h, lP, lS, lB)
    ∧ processDelivery Date_parse start end_ None items = Resolved r
    ∧ earliestPublisherPresent r = first_start h lP
    ∧ chronological_first h lP
    ∧ earliestSubscriberPresent r = first_start h lS
    ∧ chronological_first h lS
    ∧ earliestBothPresent r = first_start h lB
    ∧ chronological_first h lB.
Proof.
  intros Es Ee Hw Hnd.
  destruct (for_of_sim Date_parse items initial vinitial Sim_initial)
    as (st & E & HS).
  destruct (timed3_run Date_parse items Hnd)
    as (now & (loP & mP & HcP & _) & (loS & mS & HcS & _) & (loB & mB & HcB & _)).
  pose proof (Sim_NoDup _ _ HS) as Hnodup.
  destruct HS as ((_ & HP & _) & (_ & HS & _) & (_ & HB & _) & _).
  destruct (truncated_closed (mkDate (Some ws)) (mkDate (Some we)) st _
              Hnodup HP HS HB)
    as (h & lP & lS & lB & Et & HP' & HS' & HB' & _).
  exists st, h, lP, lS, lB. eexists.
  split; [done|]. split; [done|]. split.
  { apply processDelivery_resolved. rewrite Es, Ee. simpl.
    apply Z.leb_gt. lia. }
  rewrite Es, Ee. simpl.
  rewrite (earliest_first_start _ _ _ HP'), (earliest_first_start _ _ _ HS'),
    (earliest_first_start _ _ _ HB').
  repeat split; eapply chronological_first_closed;
    eauto using clip_first_is_least.
Qed.

Lemma earliest_is_first_surviving_witness :
  ∃ st h lP lS lB r,
    for_of sample_parse initial scenario = Ok st
    ∧ truncated (mkDate (Some 0)) (mkDate (Some 30)) st = (h, lP, lS, lB)
    ∧ processDelivery sample_parse (DateString "1970-01-01T00:00:00.000Z")
        (DateString "1970-01-01T00:00:00.030Z") None scenario = Resolved r
    ∧ earliestPublisherPresent r = first_start h lP
    ∧ chronological_first h lP
    ∧ earliestSubscriberPresent r = first_start h lS
    ∧ chronological_first h lS
    ∧ earliestBothPresent r = first_start h lB
    ∧ chronological_first h lB.
Proof.
  apply (earliest_is_first_surviving sample_parse _ _ 0 30 scenario);
    [reflexivity | reflexivity | lia | reflexivity].
Defined.

(** C7 as stated fails: with no interval at all, the three
    [earliest...Present] are the number 0, not the string "none". *)
Lemma earliest_is_not_none :
  ∃ r,
    processDelivery sample_parse (Epoch 0) (Epoch 30) None [] = Resolved r
    ∧ truncated (mkDate (Some 0)) (mkDate (Some 30)) initial = ([], [], [], [])
    ∧ earliestPublisherPresent r = VNumber 0
    ∧ earliestPublisherPresent r ≠ VString "none"
    ∧ earliestSubscriberPresent r ≠ VString "none"
    ∧ earliestBothPresent r ≠ VString "none".
Proof. eexists. split; [reflexivity|]. repeat split; discriminate. Qed.

(** ** Clipping one interval *)

Lemma truncateIntervals_singleton sd ed (h : heap) (r : ref) (i : interval) :
  h !! r = Some i →
  truncateIntervals sd ed h [r]
  = if survives sd ed h r then (<[r := clamp sd ed i]> h, [r]) else (h, []).
Proof.
  intros Hi. unfold truncateIntervals. cbn [foldl]. rewrite truncate_one.
  destruct (survives sd ed h r); [|done]. simpl. f_equal.
  rewrite list_insert_alter. apply list_alter_ext; [|done].
  intros x Hx. congruence.
Qed.

(** C2, amended: an interval with valid dates is discarded when it starts
    at or after the window end or ends at or before the window start;
    otherwise it is kept, the same object, holding the overlap
    [max(start, window start), min(end, window end)]; and an interval
    inside the window that is not discarded is left as it was. *)
Theorem truncate_one_interval (h : heap) (r : ref) (i : interval)
    (s e ws we : Z) :
  h !! r = Some i →
  start i = mkDate (Some s) →
  end_ i = Some (mkDate (Some e)) →
  ws < we →
  (ws ≤ s → e ≤ we → s < we → ws < e →
   truncateIntervals (mkDate (Some ws)) (mkDate (Some we)) h [r] = (h, [r]))
  ∧ (we ≤ s ∨ e ≤ ws →
     truncateIntervals (mkDate (Some ws)) (mkDate (Some we)) h [r] = (h, []))
  ∧ (s < we → ws < e →
     truncateIntervals (mkDate (Some ws)) (mkDate (Some we)) h [r]
     = (<[r := mkInterval (publisherOrSubscriber i) (presenceAction i)
                 (mkDate (Some (Z.max s ws)))
                 (Some (mkDate (Some (Z.min e we))))]> h, [r])).
Proof.
  intros Hi Hs He _.
  rewrite (truncateIntervals_singleton _ _ h r i Hi).
  unfold survives, clamp, end_number. rewrite Hi, Hs, He. simpl.
  destruct i as [who act st en]. simpl in *. subst st en.
  destruct (Z.leb_spec we s), (Z.leb_spec e ws), (Z.ltb_spec s ws),
    (Z.ltb_spec we e); simpl; unfold set_start, set_end; simpl;
    (split; [|split]); intros; try lia; try done;
    rewrite ?Z.max_l, ?Z.max_r, ?Z.min_l, ?Z.min_r by lia; try done;
    by rewrite list_insert_id.
Qed.

Lemma truncate_one_interval_witness :
  (0 ≤ 5 → 15 ≤ 30 → 5 < 30 → 0 < 15 →
   truncateIntervals (mkDate (Some 0)) (mkDate (Some 30))
     [closed_interval 5 15] [0%nat] = ([closed_interval 5 15], [0%nat]))
  ∧ (30 ≤ 5 ∨ 15 ≤ 0 →
     truncateIntervals (mkDate (Some 0)) (mkDate (Some 30))
       [closed_interval 5 15] [0%nat] = ([closed_interval 5 15], []))
  ∧ (5 < 30 → 0 < 15 →
     truncateIntervals (mkDate (Some 0)) (mkDate (Some 30))
       [closed_interval 5 15] [0%nat]
     = (<[0%nat := mkInterval PUBLISHER "enter" (mkDate (Some (Z.max 5 0)))
                     (Some (mkDate (Some (Z.min 15 30))))]>
          [closed_interval 5 15], [0%nat])).
Proof.
  apply (truncate_one_interval [closed_interval 5 15] 0%nat
           (closed_interval 5 15) 5 15 0 30);
    [reflexivity | reflexivity | reflexivity | lia].
Defined.

(** C2 as stated fails: the interval from 0 to 0 lies inside the window
    from 0 to 30 and is discarded, not returned unchanged. *)
Lemma inside_interval_discarded :
  ¬ (∀ (h : heap) (r : ref) (i : interval) (s e ws we : Z),
       h !! r = Some i →
       start i = mkDate (Some s) →
       end_ i = Some (mkDate (Some e)) →
       ws < we →
       ws ≤ s → s ≤ e → e ≤ we →
       truncateIntervals (mkDate (Some ws)) (mkDate (Some we)) h [r]
       = (h, [r])).
Proof.
  intros H.
  specialize (H [closed_interval 0 0] 0%nat (closed_interval 0 0) 0 0 0 30
                eq_refl eq_refl eq_refl).
  discriminate H; lia.
Qed.

(** ** Truncation in place *)

(** C8, amended: truncation works in place and copies nothing. The result
    array holds the references of the input array that are kept, the heap
    has as many objects as before, each kept object has its start replaced
    by the window start when it starts earlier and its end by the window
    end when it ends later, and every other object keeps its fields. *)
Theorem truncateIntervals_in_place (sd ed : Date) (h : heap) (l : list ref) :
  NoDup l →
  ∃ h',
    truncateIntervals sd ed h l
    = (h', filter (λ r, survives sd ed h r = true) l)
    ∧ length h' = length h
    ∧ ∀ r, h' !! r
           = if bool_decide (r ∈ l) && survives sd ed h r
             then clamp sd ed <$> h !! r else h !! r.
Proof. intros Hnd. apply (truncate_fold sd ed l Hnd h []). Qed.

Lemma truncateIntervals_in_place_witness :
  ∃ h',
    truncateIntervals (mkDate (Some 0)) (mkDate (Some 10))
      [closed_interval (-5) 15; closed_interval 20 25] [0%nat; 1%nat]
    = (h', filter (λ r, survives (mkDate (Some 0)) (mkDate (Some 10))
                          [closed_interval (-5) 15; closed_interval 20 25] r
                        = true) [0%nat; 1%nat])
    ∧ length h' = length [closed_interval (-5) 15; closed_interval 20 25]
    ∧ ∀ r, h' !! r
           = if bool_decide (r ∈ [0%nat; 1%nat])
                && survives (mkDate (Some 0)) (mkDate (Some 10))
                     [closed_interval (-5) 15; closed_interval 20 25] r
             then clamp (mkDate (Some 0)) (mkDate (Some 10))
                  <$> [closed_interval (-5) 15; closed_interval 20 25] !! r
             else [closed_interval (-5) 15; closed_interval 20 25] !! r.
Proof.
  apply (truncateIntervals_in_place (mkDate (Some 0)) (mkDate (Some 10))
           [closed_interval (-5) 15; closed_interval 20 25] [0%nat; 1%nat]).
  apply NoDup_cons. split; [|apply NoDup_singleton].
  rewrite list_elem_of_singleton. lia.
Defined.

(** C8 as stated fails: truncating the interval from -5 to 15 to the window
    from 0 to 10 returns the reference it was given, and the object behind
    it now runs from 0 to 10. *)
Lemma truncateIntervals_mutates :
  ∃ h',
    truncateIntervals (mkDate (Some 0)) (mkDate (Some 10))
      [closed_interval (-5) 15] [0%nat] = (h', [0%nat])
    ∧ length h' = 1%nat
    ∧ h' !! 0%nat = Some (closed_interval 0 10)
    ∧ h' !! 0%nat ≠ [closed_interval (-5) 15] !! 0%nat.
Proof. eexists. split; [reflexivity|]. repeat split. discriminate. Qed.

(** ** Open intervals *)

Lemma sim_slot (h : heap) (t : track) (v : view) :
  sim h t v →
  (present t = true ↔ is_Some (current t))
  ∧ (∀ r, current t = Some r → ∃ i, h !! r = Some i ∧ end_ i = None)
  ∧ (∀ r, r ∈ intervals t → ∃ i, h !! r = Some i ∧ is_Some (end_ i)).
Proof.
  intros (Hp & Hc & Ho). split; [|split].
  - rewrite Hp. destruct (current t), (opened v); simpl in *; try done.
  - intros r Er. rewrite Er in Ho. destruct (opened v); simpl in Ho; [|done].
    destruct Ho as (i & Hi & _ & He). by exists i.
  - intros r Hr. apply list_elem_of_lookup in Hr as [k Hk].
    destruct (Forall2_lookup_l _ _ _ _ _ Hc Hk) as (se & _ & i & Hi & _ & He).
    exists i. split; [done|]. by eexists.
Qed.

Lemma Sim_open_in_slot (st : state) (vs : views) (r : ref) (i : interval) :
  Sim st vs → objects st !! r = Some i → end_ i = None →
  current (publisher st) = Some r ∨ current (subscriber st) = Some r
  ∨ current (both st) = Some r.
Proof.
  intros (HP & HS & HB & Hperm) Hi He.
  assert (Hr : r ∈ seq 0 (length (objects st))).
  { apply elem_of_seq. split; [lia|]. simpl. by eapply lookup_lt_Some. }
  rewrite Hperm in Hr. unfold owned in Hr.
  assert (Hclosed : ∀ t v, sim (objects st) t v → r ∉ intervals t).
  { intros t v Ht Hin.
    destruct (sim_slot _ _ _ Ht) as (_ & _ & Hc).
    destruct (Hc r Hin) as (j & Hj & [d Hd]). congruence. }
  assert (Hslot : ∀ t v, sim (objects st) t v →
                    r ∈ intervals t ++ option_list (current t) →
                    current t = Some r).
  { intros t v Ht Hin. apply elem_of_app in Hin as [Hin|Hin].
    - by eapply Hclosed in Hin.
    - destruct (current t); simpl in Hin; [|by apply elem_of_nil in Hin].
      apply list_elem_of_singleton in Hin. by subst. }
  apply elem_of_app in Hr as [Hr|Hr]; [left; by eapply Hslot|].
  apply elem_of_app in Hr as [Hr|Hr]; [right; left; by eapply Hslot|].
  right; right; by eapply Hslot.
Qed.

Lemma chain_Forall lo l hi :
  chain lo l hi →
  Forall (λ se, ∃ s e, se = (mkDate (Some s), mkDate (Some e)) ∧ s ≤ e) l.
Proof.
  revert lo. induction l as [|se l IH]; intros lo Hc; [constructor|].
  destruct Hc as (s & e & -> & H1 & H2 & H3).
  constructor; [by exists s, e|by eapply IH].
Qed.

Lemma sim_timed_closed (h : heap) (t : track) (v : view) now (r : ref) :
  sim h t v → timed now v → r ∈ intervals t →
  ∃ i s e, h !! r = Some i ∧ start i = mkDate (Some s)
           ∧ end_ i = Some (mkDate (Some e)) ∧ s ≤ e.
Proof.
  intros (_ & Hc & _) (lo & m & Hch & _) Hr.
  apply list_elem_of_lookup in Hr as [k Hk].
  destruct (Forall2_lookup_l _ _ _ _ _ Hc Hk) as (se & Hse & i & Hi & Hs & He).
  apply chain_Forall in Hch.
  destruct (proj1 (Forall_lookup _ _) Hch k se Hse) as (s & e & -> & Hle).
  by exists i, s, e.
Qed.

Section Prefixes.

Variable Date_parse : string → option Z.

Lemma nondecreasing_from_take (items : list item) : ∀ n t0,
  nondecreasing_from Date_parse t0 items = true →
  nondecreasing_from Date_parse t0 (take n items) = true.
Proof.
  induction items as [|it items IH]; intros [|n] t0; simpl; try done.
  destruct (time_value Date_parse (timestamp it)); [|done].
  intros [H1 H2]%andb_true_iff. rewrite H1. simpl. by apply IH.
Qed.

Lemma nondecreasing_take (items : list item) (n : nat) :
  nondecreasing Date_parse items = true →
  nondecreasing Date_parse (take n items) = true.
Proof.
  destruct items as [|it items], n as [|n]; try done.
  unfold nondecreasing. cbn [take].
  destruct (time_value Date_parse (timestamp it)) as [t|] eqn:Et; [|done].
  intros H. by apply (nondecreasing_from_take (it :: items) (S n)).
Qed.

End Prefixes.

(** C9: after every prefix of the events the loop has not thrown; on each
    track the current-interval variable is set exactly when the presence
    flag is true, and then refers to an object without an end; the three
    variables refer to different objects, and every object without an end
    is the one of some track's variable; and when the timestamps do not
    decrease, every interval in an array has valid dates with
    start <= end. *)
Theorem one_open_interval_per_track (Date_parse : string → option Z)
    (items : list item) (n : nat) :
  ∃ st,
    for_of Date_parse initial (take n items) = Ok st
    ∧ (∀ t, t ∈ [publisher st; subscriber st; both st] →
         (present t = true ↔ is_Some (current t))
         ∧ (∀ r, current t = Some r →
                 ∃ i, objects st !! r = Some i ∧ end_ i = None)
         ∧ (∀ r, r ∈ intervals t →
                 ∃ i, objects st !! r = Some i ∧ is_Some (end_ i)))
    ∧ NoDup (option_list (current (publisher st))
             ++ option_list (current (subscriber st))
             ++ option_list (current (both st)))
    ∧ (∀ r i, objects st !! r = Some i → end_ i = None →
         current (publisher st) = Some r ∨ current (subscriber st) = Some r
         ∨ current (both st) = Some r)
    ∧ (nondecreasing Date_parse items = true →
       ∀ t, t ∈ [publisher st; subscriber st; both st] →
         ∀ r, r ∈ intervals t →
           ∃ i s e, objects st !! r = Some i ∧ start i = mkDate (Some s)
                    ∧ end_ i = Some (mkDate (Some e)) ∧ s ≤ e).
Proof.
  destruct (for_of_sim Date_parse (take n items) initial vinitial Sim_initial)
    as (st & E & HS).
  exists st. split; [done|].
  pose proof HS as (HP & HSu & HB & Hperm).
  split; [|split; [|split]].
  - intros t Ht. repeat (apply elem_of_cons in Ht as [-> | Ht]);
      [by eapply sim_slot..|by apply elem_of_nil in Ht].
  - assert (Hnd : NoDup (owned (publisher st) ++ owned (subscriber st)
                         ++ owned (both st))).
    { rewrite <- Hperm. apply NoDup_seq. }
    eapply sublist_NoDup; [exact Hnd|]. unfold owned.
    repeat apply sublist_app; by apply sublist_inserts_l.
  - intros r i. by eapply Sim_open_in_slot.
  - intros Hnd%(nondecreasing_take Date_parse items n).
    destruct (timed3_run Date_parse _ Hnd) as (now & TP & TS & TB).
    intros t Ht r Hr. repeat (apply elem_of_cons in Ht as [-> | Ht]).
    + by apply (sim_timed_closed _ _ _ now r HP TP).
    + by apply (sim_timed_closed _ _ _ now r HSu TS).
    + by apply (sim_timed_closed _ _ _ now r HB TB).
    + by apply elem_of_nil in Ht.
Qed.

Lemma one_open_interval_per_track_witness :
  ∃ st,
    for_of sample_parse initial (take 3 scenario) = Ok st
    ∧ present (publisher st) = false ∧ current (publisher st) = None
    ∧ present (subscriber st) = true ∧ current (subscriber st) = Some 1%nat
    ∧ present (both st) = false ∧ current (both st) = None
    ∧ intervals (publisher st) = [0%nat] ∧ intervals (both st) = [2%nat]
    ∧ ∀ t, t ∈ [publisher st; subscriber st; both st] →
        ∀ r, r ∈ intervals t →
          ∃ i s e, objects st !! r = Some i ∧ start i = mkDate (Some s)
                   ∧ end_ i = Some (mkDate (Some e)) ∧ s ≤ e.
Proof.
  destruct (one_open_interval_per_track sample_parse scenario 3)
    as (st & E & _ & _ & _ & H).
  exists st. split; [exact E|].
  vm_compute in E. injection E as <-. repeat (split; [reflexivity|]).
  apply H. reflexivity.
Defined.

(** C4: an interval object that is still without an end when the events
    run out is in none of the three arrays, before or after truncation, and
    the statistics do not depend on it: they stay the same whatever that
    object is replaced with. *)
Theorem open_interval_not_counted (Date_parse : string → option Z)
    (sd ed : Date) (items : list item) (st : state) (r : ref) (i : interval) :
  for_of Date_parse initial items = Ok st →
  objects st !! r = Some i →
  end_ i = None →
  (r ∉ intervals (publisher st)) ∧ (r ∉ intervals (subscriber st))
  ∧ (r ∉ intervals (both st))
  ∧ ∃ h lP lS lB stats,
      truncated sd ed st = (h, lP, lS, lB)
      ∧ (r ∉ lP) ∧ (r ∉ lS) ∧ (r ∉ lB)
      ∧ history_callback Date_parse sd ed items = Ok stats
      ∧ ∀ i', reduce sd ed (mkState (<[r := i']> (objects st)) (publisher st)
                              (subscriber st) (both st)) = Ok stats.
Proof.
  intros E Hi He.
  destruct (for_of_sim Date_parse items initial vinitial Sim_initial)
    as (st' & E' & HS).
  assert (st' = st) as -> by congruence.
  pose proof (Sim_NoDup _ _ HS) as Hnodup.
  destruct HS as (HP & HSu & HB & _).
  assert (Hclosed : ∀ t v, sim (objects st) t v → r ∉ intervals t).
  { intros t v Ht Hin.
    destruct (sim_slot _ _ _ Ht) as (_ & _ & Hc).
    destruct (Hc r Hin) as (j & Hj & [d Hd]). congruence. }
  pose proof (Hclosed _ _ HP) as HrP.
  pose proof (Hclosed _ _ HSu) as HrS.
  pose proof (Hclosed _ _ HB) as HrB.
  destruct HP as (_ & HP & _), HSu as (_ & HSu & _), HB as (_ & HB & _).
  split; [done|]. split; [done|]. split; [done|].
  destruct (truncated_closed sd ed st _ Hnodup HP HSu HB)
    as (h & lP & lS & lB & Et & _ & _ & _ & HsP & HsS & HsB).
  exists h, lP, lS, lB. eexists.
  split; [done|].
  split; [by intros ?%HsP|]. split; [by intros ?%HsS|].
  split; [by intros ?%HsB|].
  split.
  - unfold history_callback. rewrite E. simpl.
    by apply (reduce_closed sd ed st _ Hnodup HP HSu HB).
  - intros i'. apply reduce_closed; simpl; [done|..].
    + eapply Forall2_impl_elem; [exact HP|]. intros r' se Hr'.
      apply closed_at_agree, list_lookup_insert_ne. by intros ->.
    + eapply Forall2_impl_elem; [exact HSu|]. intros r' se Hr'.
      apply closed_at_agree, list_lookup_insert_ne. by intros ->.
    + eapply Forall2_impl_elem; [exact HB|]. intros r' se Hr'.
      apply closed_at_agree, list_lookup_insert_ne. by intros ->.
Qed.

Lemma open_interval_not_counted_witness :
  (0%nat ∉ @nil nat) ∧ (0%nat ∉ @nil nat) ∧ (0%nat ∉ @nil nat)
  ∧ ∃ h lP lS lB stats,
      truncated (mkDate (Some 0)) (mkDate (Some 30))
        (mkState [mkInterval PUBLISHER "enter" (mkDate (Some 0)) None]
           (mkTrack true [] (Some 0%nat)) (mkTrack false [] None)
           (mkTrack false [] None)) = (h, lP, lS, lB)
      ∧ (0%nat ∉ lP) ∧ (0%nat ∉ lS) ∧ (0%nat ∉ lB)
      ∧ history_callback sample_parse (mkDate (Some 0)) (mkDate (Some 30))
          publisher_enters = Ok stats
      ∧ ∀ i', reduce (mkDate (Some 0)) (mkDate (Some 30))
                (mkState (<[0%nat := i']>
                            [mkInterval PUBLISHER "enter" (mkDate (Some 0))
                               None])
                   (mkTrack true [] (Some 0%nat)) (mkTrack false [] None)
                   (mkTrack false [] None)) = Ok stats.
Proof.
  apply (open_interval_not_counted sample_parse (mkDate (Some 0))
           (mkDate (Some 30)) publisher_enters
           (mkState [mkInterval PUBLISHER "enter" (mkDate (Some 0)) None]
              (mkTrack true [] (Some 0%nat)) (mkTrack false [] None)
              (mkTrack false [] None))
           0%nat (mkInterval PUBLISHER "enter" (mkDate (Some 0)) None));
    reflexivity.
Defined.

(** ** Role tags *)




(** * Further properties of [processDelivery] *)

(** ** How the promise settles *)


(** ** The presence flags *)

Lemma isSome_vtransition ts np (v : view) :
  isSome (opened (vtransition ts np v)) = np.
Proof.
  unfold vtransition.
  destruct np, (opened v) eqn:E; simpl; by rewrite ?E.
Qed.

Section Presence.

Variable Date_parse : string → option Z.

Lemma vstep_presence (vs : views) (it : item) :
  isSome (opened (vpublisher (vstep Date_parse vs it)))
  = (if is_PUBLISHER (type it) then enter_or_update (action it)
     else isSome (opened (vpublisher vs)))
  ∧ isSome (opened (vsubscriber (vstep Date_parse vs it)))
    = (if is_PUBLISHER (type it) then isSome (opened (vsubscriber vs))
       else enter_or_update (action it))
  ∧ isSome (opened (vboth (vstep Date_parse vs it)))
    = isSome (opened (vpublisher (vstep Date_parse vs it)))
      && isSome (opened (vsubscriber (vstep Date_parse vs it))).
Proof.
  unfold vstep. destruct (is_PUBLISHER (type it)); simpl;
    by rewrite !isSome_vtransition.
Qed.

Lemma vrun_snoc (vs : views) (items : list item) (it : item) :
  vrun Date_parse vs (items ++ [it])
  = vstep Date_parse (vrun Date_parse vs items) it.
Proof. unfold vrun. by rewrite foldl_snoc. Qed.

Lemma last_presence_snoc (role : bool) (items : list item) (it : item) :
  last_presence role (items ++ [it])
  = if eqb (is_PUBLISHER (type it)) role then enter_or_update (action it)
    else last_presence role items.
Proof. unfold last_presence. by rewrite foldl_snoc. Qed.

Lemma vrun_presence (items : list item) :
  isSome (opened (vpublisher (vrun Date_parse vinitial items)))
  = last_presence true items
  ∧ isSome (opened (vsubscriber (vrun Date_parse vinitial items)))
    = last_presence false items
  ∧ isSome (opened (vboth (vrun Date_parse vinitial items)))
    = last_presence true items && last_presence false items.
Proof.
  induction items as [|it items IH] using rev_ind; [done|].
  destruct IH as (IP & IS & IB).
  rewrite vrun_snoc, !last_presence_snoc.
  destruct (vstep_presence (vrun Date_parse vinitial items) it)
    as (EP & ES & EB).
  rewrite EB, EP, ES, IP, IS.
  by destruct (is_PUBLISHER (type it)).
Qed.

End Presence.

Lemma for_of_presence (Date_parse : string → option Z) (items : list item) :
  ∃ st,
    for_of Date_parse initial items = Ok st
    ∧ present (publisher st) = last_presence true items
    ∧ present (subscriber st) = last_presence false items
    ∧ present (both st) = present (publisher st) && present (subscriber st).
Proof.
  destruct (for_of_sim Date_parse items initial vinitial Sim_initial)
    as (st & E & (HP & _) & (HS & _) & (HB & _) & _).
  destruct (vrun_presence Date_parse items) as (EP & ES & EB).
  exists st. split; [done|]. rewrite HP, HS, HB, EP, ES, EB. done.
Qed.


(** X3: an event that repeats the presence its role already has changes
    nothing: no interval is opened, closed or pushed, on any track. *)
Theorem repeated_presence_is_idle (Date_parse : string → option Z)
    (items : list item) (st : state) (it : item) :
  for_of Date_parse initial items = Ok st →
  (if is_PUBLISHER (type it) then present (publisher st)
   else present (subscriber st)) = enter_or_update (action it) →
  loop_body Date_parse st it = Ok st
  ∧ for_of Date_parse initial (items ++ [it]) = Ok st.
Proof.
  intros E Hsame.
  destruct (for_of_presence Date_parse items) as (st' & E' & _ & _ & HB).
  assert (st' = st) as -> by congruence.
  assert (Hbody : loop_body Date_parse st it = Ok st).
  { destruct st as [h P S B]. simpl in *.
    unfold loop_body, new_Date. simpl.
    destruct (is_PUBLISHER (type it)); rewrite <- Hsame; unfold transition;
      rewrite HB, !eqb_reflx; simpl; done. }
  split; [done|]. rewrite for_of_app, E. simpl. by rewrite Hbody.
Qed.

Lemma repeated_presence_is_idle_witness :
  loop_body sample_parse
    (mkState [mkInterval PUBLISHER "enter" (mkDate (Some 0)) None]
       (mkTrack true [] (Some 0%nat)) (mkTrack false [] None)
       (mkTrack false [] None)) publisher_update
  = Ok (mkState [mkInterval PUBLISHER "enter" (mkDate (Some 0)) None]
          (mkTrack true [] (Some 0%nat)) (mkTrack false [] None)
          (mkTrack false [] None))
  ∧ for_of sample_parse initial (publisher_enters ++ [publisher_update])
    = Ok (mkState [mkInterval PUBLISHER "enter" (mkDate (Some 0)) None]
            (mkTrack true [] (Some 0%nat)) (mkTrack false [] None)
            (mkTrack false [] None)).
Proof.
  apply (repeated_presence_is_idle sample_parse publisher_enters); reflexivity.
Defined.

(** ** Lengths inside the window *)

Lemma zlen_max ws we s e :
  ws < we → s ≤ e → zlen ws we s e = Z.max 0 (Z.min e we - Z.max s ws).
Proof.
  intros Hw Hse. unfold zlen.
  destruct (Z.leb_spec we s), (Z.leb_spec e ws), (Z.ltb_spec we e),
    (Z.ltb_spec s ws); simpl; lia.
Qed.


Lemma total_clip_ztotal ws we lo l hi :
  chain lo l hi →
  total (clip (mkDate (Some ws)) (mkDate (Some we)) l)
  = Some (ztotal ws we l).
Proof.
  revert lo. induction l as [|se l IH]; intros lo Hc; [done|].
  destruct Hc as (s & e & -> & H1 & H2 & H3).
  rewrite clip_cons. cbn [ztotal]. unfold vlen, zlen, clip1. simpl.
  destruct ((we <=? s) || (e <=? ws)).
  - rewrite (IH e H3). f_equal.
  - rewrite total_cons, (IH e H3). simpl.
    by destruct (s <? ws), (we <? e).
Qed.


Lemma clip_within ws we lo l hi :
  ws < we → chain lo l hi →
  Forall (λ se, ∃ s e, se = (mkDate (Some s), mkDate (Some e))
                       ∧ ws ≤ s ∧ s ≤ e ∧ e ≤ we)
    (clip (mkDate (Some ws)) (mkDate (Some we)) l).
Proof.
  intros Hw. revert lo. induction l as [|se l IH]; intros lo Hc;
    [constructor|].
  destruct Hc as (s & e & -> & H1 & H2 & H3).
  rewrite clip_cons. unfold clip1. simpl.
  destruct (Z.leb_spec we s); simpl; [by eapply IH|].
  destruct (Z.leb_spec e ws); simpl; [by eapply IH|].
  constructor; [|by eapply IH].
  destruct (Z.ltb_spec s ws), (Z.ltb_spec we e);
    eexists _, _; (split; [reflexivity|]); lia.
Qed.

Lemma chain_consecutive lo l hi (k : nat) se1 se2 :
  chain lo l hi → l !! k = Some se1 → l !! S k = Some se2 →
  ∃ e s, se1.2 = mkDate (Some e) ∧ se2.1 = mkDate (Some s) ∧ e ≤ s.
Proof.
  revert lo k. induction l as [|se l IH]; intros lo k Hc H1 H2; [done|].
  destruct Hc as (s & e & -> & Hlo & Hse & Hc).
  destruct k as [|k]; simpl in *.
  - injection H1 as <-. destruct l as [|se' l]; [done|].
    injection H2 as ->. destruct Hc as (s' & e' & -> & Hes & _).
    by exists e, s'.
  - by eapply IH.
Qed.

Lemma closed_within ws we (h : heap) (l : list ref) vs (r : ref) :
  Forall2 (closed_at h) l vs →
  Forall (λ se, ∃ s e, se = (mkDate (Some s), mkDate (Some e))
                       ∧ ws ≤ s ∧ s ≤ e ∧ e ≤ we) vs →
  r ∈ l → within ws we h r.
Proof.
  intros HF Hall Hr. apply list_elem_of_lookup in Hr as [k Hk].
  destruct (Forall2_lookup_l _ _ _ _ _ HF Hk) as (se & Hse & i & Hi & Hs & He).
  destruct (proj1 (Forall_lookup _ _) Hall k se Hse) as (s & e & -> & Hb).
  by exists i, s, e.
Qed.

Lemma closed_precedes (h : heap) (l : list ref) vs lo hi (k : nat)
    (r1 r2 : ref) :
  Forall2 (closed_at h) l vs → chain lo vs hi →
  l !! k = Some r1 → l !! S k = Some r2 → precedes h r1 r2.
Proof.
  intros HF Hc H1 H2.
  destruct (Forall2_lookup_l _ _ _ _ _ HF H1) as (se1 & E1 & i1 & Hi1 & _ & He1).
  destruct (Forall2_lookup_l _ _ _ _ _ HF H2) as (se2 & E2 & i2 & Hi2 & Hs2 & _).
  destruct (chain_consecutive _ _ _ _ _ _ Hc E1 E2) as (e & s & Ee & Es & Hle).
  exists i1, i2, e, s. by rewrite He1, Hs2, Ee, Es.
Qed.



(** X5: for non-decreasing timestamps and a valid window, every interval
    left in the three arrays by truncation has valid dates and lies inside
    the window: window start <= start <= end <= window end. *)
Theorem truncated_within_window (Date_parse : string → option Z)
    (ws we : Z) (items : list item) :
  ws < we →
  nondecreasing Date_parse items = true →
  ∃ st h lP lS lB,
    for_of Date_parse initial items = Ok st
    ∧ truncated (mkDate (Some ws)) (mkDate (Some we)) st = (h, lP, lS, lB)
    ∧ ∀ r, r ∈ lP ++ lS ++ lB → within ws we h r.
Proof.
  intros Hw Hnd.
  destruct (for_of_sim Date_parse items initial vinitial Sim_initial)
    as (st & E & HS).
  destruct (timed3_run Date_parse items Hnd)
    as (now & (loP & mP & HcP & _) & (loS & mS & HcS & _) & (loB & mB & HcB & _)).
  pose proof (Sim_NoDup _ _ HS) as Hnodup.
  destruct HS as ((_ & HP & _) & (_ & HS & _) & (_ & HB & _) & _).
  destruct (truncated_closed (mkDate (Some ws)) (mkDate (Some we)) st _
              Hnodup HP HS HB)
    as (h & lP & lS & lB & Et & HP' & HS' & HB' & _).
  exists st, h, lP, lS, lB. split; [done|]. split; [done|].
  intros r Hr. rewrite !elem_of_app in Hr. destruct Hr as [Hr|[Hr|Hr]].
  - eapply closed_within; [exact HP'| |done]. by eapply clip_within.
  - eapply closed_within; [exact HS'| |done]. by eapply clip_within.
  - eapply closed_within; [exact HB'| |done]. by eapply clip_within.
Qed.

Lemma truncated_within_window_witness :
  ∃ st h lP lS lB,
    for_of sample_parse initial two_visits = Ok st
    ∧ truncated (mkDate (Some 10)) (mkDate (Some 30)) st = (h, lP, lS, lB)
    ∧ ∀ r, r ∈ lP ++ lS ++ lB → within 10 30 h r.
Proof.
  apply (truncated_within_window sample_parse 10 30 two_visits);
    [lia | reflexivity].
Defined.

(** X6: for non-decreasing timestamps, the intervals of each array are in
    time order and do not overlap: each one ends no later than the next one
    starts. *)
Theorem arrays_in_time_order (Date_parse : string → option Z)
    (items : list item) :
  nondecreasing Date_parse items = true →
  ∃ st,
    for_of Date_parse initial items = Ok st
    ∧ ∀ t, t ∈ [publisher st; subscriber st; both st] →
        ∀ (k : nat) (r1 r2 : ref),
          intervals t !! k = Some r1 → intervals t !! S k = Some r2 →
          precedes (objects st) r1 r2.
Proof.
  intros Hnd.
  destruct (for_of_sim Date_parse items initial vinitial Sim_initial)
    as (st & E & HS).
  destruct (timed3_run Date_parse items Hnd)
    as (now & (loP & mP & HcP & _) & (loS & mS & HcS & _) & (loB & mB & HcB & _)).
  destruct HS as ((_ & HP & _) & (_ & HS & _) & (_ & HB & _) & _).
  exists st. split; [done|].
  intros t Ht k r1 r2 H1 H2.
  repeat (apply elem_of_cons in Ht as [-> | Ht]).
  - by eapply (closed_precedes _ _ _ _ _ _ _ _ HP HcP).
  - by eapply (closed_precedes _ _ _ _ _ _ _ _ HS HcS).
  - by eapply (closed_precedes _ _ _ _ _ _ _ _ HB HcB).
  - by apply elem_of_nil in Ht.
Qed.

Lemma arrays_in_time_order_witness :
  ∃ st,
    for_of sample_parse initial two_visits = Ok st
    ∧ ∀ t, t ∈ [publisher st; subscriber st; both st] →
        ∀ (k : nat) (r1 r2 : ref),
          intervals t !! k = Some r1 → intervals t !! S k = Some r2 →
          precedes (objects st) r1 r2.
Proof.
  apply (arrays_in_time_order sample_parse two_visits). reflexivity.
Defined.

(** ** Both present against each role *)


Section Dominated.

Variable Date_parse : string → option Z.




End Dominated.





(** ** A wider window *)

Lemma ztotal_window_mono ws1 we1 ws2 we2 lo l hi :
  ws2 ≤ ws1 → ws1 < we1 → we1 ≤ we2 → chain lo l hi →
  ztotal ws1 we1 l ≤ ztotal ws2 we2 l.
Proof.
  intros H1 H2 H3. revert lo. induction l as [|se l IH]; intros lo Hc;
    [done|].
  destruct Hc as (s & e & -> & Hlo & Hse & Hc). simpl. unfold vlen. simpl.
  pose proof (IH e Hc). rewrite !zlen_max by lia. lia.
Qed.

(** X8: for non-decreasing timestamps, widening a valid window never
    lowers a present time: each of the three present times over a window
    is at most the one over any window that contains it. *)
Theorem wider_window_counts_no_less (Date_parse : string → option Z)
    (start1 end1 start2 end2 : DateArg) (ws1 we1 ws2 we2 : Z)
    (items : list item) :
  time_value Date_parse start1 = Some ws1 →
  time_value Date_parse end1 = Some we1 →
  time_value Date_parse start2 = Some ws2 →
  time_value Date_parse end2 = Some we2 →
  ws2 ≤ ws1 → ws1 < we1 → we1 ≤ we2 →
  nondecreasing Date_parse items = true →
  ∃ r1 r2 p1 s1 b1 p2 s2 b2,
    processDelivery Date_parse start1 end1 None items = Resolved r1
    ∧ processDelivery Date_parse start2 end2 None items = Resolved r2
    ∧ publisherPresentMillis r1 = Some p1
    ∧ publisherPresentMillis r2 = Some p2
    ∧ subscriberPresentMillis r1 = Some s1
    ∧ subscriberPresentMillis r2 = Some s2
    ∧ bothPresentMillis r1 = Some b1
    ∧ bothPresentMillis r2 = Some b2
    ∧ p1 ≤ p2 ∧ s1 ≤ s2 ∧ b1 ≤ b2.
Proof.
  intros E1 E2 E3 E4 H1 H2 H3 Hnd.
  destruct (timed3_run Date_parse items Hnd)
    as (now & (loP & mP & HP & _) & (loS & mS & HS & _) & (loB & mB & HB & _)).
  eexists _, _, _, _, _, _, _, _. split; [|split].
  - apply processDelivery_resolved. rewrite E1, E2. simpl.
    apply Z.leb_gt. lia.
  - apply processDelivery_resolved. rewrite E3, E4. simpl.
    apply Z.leb_gt. lia.
  - rewrite E1, E2, E3, E4. simpl.
    rewrite !(total_clip_ztotal _ _ _ _ _ HP),
      !(total_clip_ztotal _ _ _ _ _ HS), !(total_clip_ztotal _ _ _ _ _ HB).
    repeat (split; [reflexivity|]).
    split; [|split]; by eapply ztotal_window_mono.
Qed.

Lemma wider_window_counts_no_less_witness :
  ∃ r1 r2 p1 s1 b1 p2 s2 b2,
    processDelivery sample_parse (DateString "1970-01-01T00:00:00.010Z")
      (DateString "1970-01-01T00:00:00.030Z") None two_visits = Resolved r1
    ∧ processDelivery sample_parse (DateString "1970-01-01T00:00:00.000Z")
        (Epoch 50) None two_visits = Resolved r2
    ∧ publisherPresentMillis r1 = Some p1
    ∧ publisherPresentMillis r2 = Some p2
    ∧ subscriberPresentMillis r1 = Some s1
    ∧ subscriberPresentMillis r2 = Some s2
    ∧ bothPresentMillis r1 = Some b1
    ∧ bothPresentMillis r2 = Some b2
    ∧ p1 ≤ p2 ∧ s1 ≤ s2 ∧ b1 ≤ b2.
Proof.
  apply (wider_window_counts_no_less sample_parse _ _ _ _ 10 30 0 50
           two_visits); (reflexivity || lia).
Defined.

(** ** Events on one side of the window *)

Lemma dated_vtransition f ts np (v : view) :
  f (getTime ts) = true → dated f v → dated f (vtransition ts np v).
Proof.
  intros Hts Hd. pose proof Hd as (Hc & Ho). unfold vtransition.
  destruct np, (opened v) as [s|] eqn:Eo; simpl; try done.
  - split; [done|]. simpl. intros d Ed. by simplify_eq.
  - split; simpl; [|done]. apply Forall_app. split; [done|].
    constructor; [|constructor]. simpl. split; [by apply Ho|done].
Qed.

Section OneSide.

Variable Date_parse : string → option Z.

Lemma dated_vrun f (items : list item) : ∀ vs,
  forallb (λ it, f (time_value Date_parse (timestamp it))) items = true →
  dated f (vpublisher vs) → dated f (vsubscriber vs) → dated f (vboth vs) →
  dated f (vpublisher (vrun Date_parse vs items))
  ∧ dated f (vsubscriber (vrun Date_parse vs items))
  ∧ dated f (vboth (vrun Date_parse vs items)).
Proof.
  induction items as [|it items IH]; intros vs Hall HP HS HB; [done|].
  simpl in Hall. apply andb_true_iff in Hall as [Hit Hall].
  simpl. apply IH; [done|..]; unfold vstep;
    destruct (is_PUBLISHER (type it)); simpl;
    done || by apply dated_vtransition.
Qed.

Lemma dated_run f (items : list item) :
  forallb (λ it, f (time_value Date_parse (timestamp it))) items = true →
  dated f (vpublisher (vrun Date_parse vinitial items))
  ∧ dated f (vsubscriber (vrun Date_parse vinitial items))
  ∧ dated f (vboth (vrun Date_parse vinitial items)).
Proof.
  intros Hall. apply dated_vrun; [done|..]; by split.
Qed.

End OneSide.

Lemma clip_nil_from sd ed (l : list (Date * Date)) :
  Forall (λ se, ge (getTime se.1) (getTime ed) = true) l → clip sd ed l = [].
Proof.
  induction 1 as [|se l Hse _ IH]; [done|].
  rewrite clip_cons. unfold clip1. by rewrite Hse.
Qed.

Lemma clip_nil_until sd ed (l : list (Date * Date)) :
  Forall (λ se, le (getTime se.2) (getTime sd) = true) l → clip sd ed l = [].
Proof.
  induction 1 as [|se l Hse _ IH]; [done|].
  rewrite clip_cons. unfold clip1. rewrite Hse.
  by rewrite orb_true_r.
Qed.

Lemma dated_clip_nil ws we (v : view) :
  dated (λ t, ge t (Some we)) v ∨ dated (λ t, le t (Some ws)) v →
  clip (mkDate (Some ws)) (mkDate (Some we)) (closed v) = [].
Proof.
  intros [(Hc & _)|(Hc & _)].
  - apply clip_nil_from. eapply Forall_impl; [exact Hc|]. by intros se [? _].
  - apply clip_nil_until. eapply Forall_impl; [exact Hc|]. by intros se [_ ?].
Qed.

(** X9: when every event has a valid timestamp at or after the end of a
    valid window, or every event has one at or before its start, in any
    order, the three present times are 0, the three percentages are 0 and
    the three earliest values are the number 0. An empty history is such a
    one. *)
Theorem history_outside_window (Date_parse : string → option Z)
    (start end_ : DateArg) (ws we : Z) (items : list item) :
  time_value Date_parse start = Some ws →
  time_value Date_parse end_ = Some we →
  ws < we →
  all_from Date_parse we items = true ∨ all_until Date_parse ws items = true →
  ∃ r q,
    processDelivery Date_parse start end_ None items = Resolved r
    ∧ publisherPresentMillis r = Some 0
    ∧ subscriberPresentMillis r = Some 0
    ∧ bothPresentMillis r = Some 0
    ∧ publisherPresentPercent r = Finite q
    ∧ subscriberPresentPercent r = Finite q
    ∧ bothPresentPercent r = Finite q
    ∧ (q == 0)%Q
    ∧ earliestPublisherPresent r = VNumber 0
    ∧ earliestSubscriberPresent r = VNumber 0
    ∧ earliestBothPresent r = VNumber 0.
Proof.
  intros Es Ee Hw Hside.
  assert (HP : clip (mkDate (Some ws)) (mkDate (Some we))
                 (closed (vpublisher (vrun Date_parse vinitial items))) = []
               ∧ clip (mkDate (Some ws)) (mkDate (Some we))
                   (closed (vsubscriber (vrun Date_parse vinitial items))) = []
               ∧ clip (mkDate (Some ws)) (mkDate (Some we))
                   (closed (vboth (vrun Date_parse vinitial items))) = []).
  { destruct Hside as [H|H].
    - apply (dated_run Date_parse (λ t, ge t (Some we))) in H
        as (HP & HS & HB).
      repeat split; apply dated_clip_nil; by left.
    - apply (dated_run Date_parse (λ t, le t (Some ws))) in H
        as (HP & HS & HB).
      repeat split; apply dated_clip_nil; by right. }
  destruct HP as (HP & HS & HB).
  eexists _, _. split.
  - apply processDelivery_resolved. rewrite Es, Ee. simpl.
    apply Z.leb_gt. lia.
  - rewrite Es, Ee. simpl. rewrite HP, HS, HB. simpl.
    destruct (Z.eqb_spec (we - ws) 0) as [?|_]; [lia|].
    repeat (split; [reflexivity|]). reflexivity.
Qed.

Lemma history_outside_window_witness :
  ∃ r q,
    processDelivery sample_parse (Epoch 50) (Epoch 90) None two_visits
    = Resolved r
    ∧ publisherPresentMillis r = Some 0
    ∧ subscriberPresentMillis r = Some 0
    ∧ bothPresentMillis r = Some 0
    ∧ publisherPresentPercent r = Finite q
    ∧ subscriberPresentPercent r = Finite q
    ∧ bothPresentPercent r = Finite q
    ∧ (q == 0)%Q
    ∧ earliestPublisherPresent r = VNumber 0
    ∧ earliestSubscriberPresent r = VNumber 0
    ∧ earliestBothPresent r = VNumber 0.
Proof.
  apply (history_outside_window sample_parse _ _ 50 90 two_visits);
    [reflexivity | reflexivity | lia | right; reflexivity].
Defined.

(** ** Truncating twice *)

Lemma filter_all {A} (P : A → Prop) `{∀ x, Decision (P x)} (l : list A) :
  (∀ x, x ∈ l → P x) → filter P l = l.
Proof.
  induction l as [|x l IH]; intros HP; [done|].
  rewrite filter_cons_True by (apply HP; left).
  f_equal. apply IH. intros y Hy. apply HP. by right.
Qed.

Lemma survives_clamp sd ed (h h' : heap) (r : ref) (i : interval) :
  ge (getTime sd) (getTime ed) = false →
  h !! r = Some i → survives sd ed h r = true →
  h' !! r = Some (clamp sd ed i) →
  survives sd ed h' r = true ∧ clamp sd ed (clamp sd ed i) = clamp sd ed i.
Proof.
  unfold survives. intros Hge -> Hs ->. revert Hge Hs.
  destruct i as [w a [s] e], sd as [sd], ed as [ed].
  unfold clamp, end_number, set_start, set_end, ge, le, lt, gt. simpl.
  destruct e as [[e]|], s as [s|], sd as [sd|], ed as [ed|]; simpl;
    try destruct e as [e|]; simpl;
    repeat match goal with
      | |- context [Z.leb ?x ?y] => destruct (Z.leb_spec x y); simpl
      | |- context [Z.ltb ?x ?y] => destruct (Z.ltb_spec x y); simpl
      end;
    intros; try done; try lia.
Qed.

(** X10: when the bounds have passed the test [startDate >= endDate],
    truncating an array a second time changes nothing: the same references
    are kept and every object keeps the fields the first truncation left in
    it. *)
Theorem truncateIntervals_twice (sd ed : Date) (h : heap) (l : list ref) :
  ge (getTime sd) (getTime ed) = false →
  NoDup l →
  ∃ h' l',
    truncateIntervals sd ed h l = (h', l')
    ∧ truncateIntervals sd ed h' l' = (h', l').
Proof.
  intros Hge Hnd.
  destruct (truncate_fold sd ed l Hnd h []) as (h' & E & _ & Hlook).
  simpl in E.
  pose proof (NoDup_filter (λ r, survives sd ed h r = true) l Hnd) as Hnd'.
  destruct (truncate_fold sd ed _ Hnd' h' []) as (h'' & E' & _ & Hlook').
  simpl in E'.
  assert (Hkept : ∀ r, r ∈ filter (λ r, survives sd ed h r = true) l →
                    survives sd ed h' r = true
                    ∧ clamp sd ed <$> h' !! r = h' !! r).
  { intros r [Hs Hr]%list_elem_of_filter.
    assert (Hi : ∃ i, h !! r = Some i).
    { unfold survives in Hs. destruct (h !! r); [by eexists|done]. }
    destruct Hi as [i Hi].
    assert (Hi' : h' !! r = Some (clamp sd ed i)).
    { rewrite Hlook, Hs, Hi, bool_decide_eq_true_2 by done. done. }
    destruct (survives_clamp sd ed h h' r i Hge Hi Hs Hi') as [Hs' Hc].
    split; [done|]. rewrite Hi'. simpl. by rewrite Hc. }
  eexists _, _. split; [exact E|]. unfold truncateIntervals. rewrite E'.
  f_equal.
  - apply list_eq. intros r. rewrite Hlook'.
    destruct (bool_decide _) eqn:Eb; simpl; [|done].
    apply bool_decide_eq_true_1 in Eb.
    destruct (Hkept r Eb) as [-> Hc]. done.
  - apply filter_all. intros r Hr. by apply Hkept.
Qed.

Lemma truncateIntervals_twice_witness :
  ∃ h' l',
    truncateIntervals (mkDate (Some 0)) (mkDate (Some 10)) three_intervals
      [0%nat; 1%nat; 2%nat] = (h', l')
    ∧ truncateIntervals (mkDate (Some 0)) (mkDate (Some 10)) h' l' = (h', l').
Proof.
  apply (truncateIntervals_twice (mkDate (Some 0)) (mkDate (Some 10))
           three_intervals [0%nat; 1%nat; 2%nat]); [reflexivity|].
  apply NoDup_cons. split; [|apply NoDup_cons; split; [|apply NoDup_singleton]].
  - rewrite !elem_of_cons, elem_of_nil. lia.
  - rewrite list_elem_of_singleton. lia.
Defined.

(** ** Truncating to bounds that are not dates *)

Lemma truncate_fold_invalid (h : heap) (l : list ref) : ∀ acc,
  (∀ r, r ∈ l → is_Some (h !! r)) →
  foldl (truncate Invalid_Date Invalid_Date) (h, acc) l = (h, acc ++ l).
Proof.
  induction l as [|r l IH]; intros acc Hl; simpl.
  - by rewrite app_nil_r.
  - destruct (Hl r (list_elem_of_here _ _)) as [i Hi].
    change (foldl (truncate Invalid_Date Invalid_Date)
              (truncate Invalid_Date Invalid_Date (h, acc) r) l
            = (h, acc ++ r :: l)).
    rewrite truncate_one. unfold survives. rewrite Hi. simpl.
    assert (Hge : ∀ a, ge a None = false) by (by intros [a|]).
    assert (Hle : ∀ a, le a None = false) by (by intros [a|]).
    assert (Hlt : ∀ a, lt a None = false) by (by intros [a|]).
    assert (Hgt : ∀ a, gt a None = false) by (by intros [a|]).
    rewrite Hge, Hle. simpl.
    rewrite list_alter_id.
    + rewrite IH by (intros r' Hr'; apply Hl; by right).
      by rewrite <- app_assoc.
    + intros x. unfold clamp. simpl. by rewrite Hlt, Hgt.
Qed.

(** X11: when both bounds are Invalid Dates, truncation discards nothing
    and clamps nothing: it returns the array it was given and leaves every
    object as it was. *)
Theorem truncateIntervals_invalid_bounds (h : heap) (l : list ref) :
  (∀ r, r ∈ l → is_Some (h !! r)) →
  truncateIntervals Invalid_Date Invalid_Date h l = (h, l).
Proof. intros Hl. by apply (truncate_fold_invalid h l []). Qed.

Lemma truncateIntervals_invalid_bounds_witness :
  truncateIntervals Invalid_Date Invalid_Date three_intervals
    [0%nat; 1%nat; 2%nat] = (three_intervals, [0%nat; 1%nat; 2%nat]).
Proof.
  apply (truncateIntervals_invalid_bounds three_intervals
           [0%nat; 1%nat; 2%nat]).
  intros r Hr. rewrite !elem_of_cons, elem_of_nil in Hr.
  destruct Hr as [->|[->|[->|[]]]]; by eexists.
Defined.
